(** * DevEvents: the model and validation layer, and the connection cache

    A shallow embedding of the TypeScript sources of the repository:

    - [JS]       the string primitives the sources call ([toLowerCase],
                 [trim], the classes [\w] and [\s]);
    - [Regex]    regular expressions without flags, with [test] for the
                 anchored patterns the sources write;
    - [Slug]     the slug derivation chain of the event model's pre-save
                 hook, as replicated in [event.model.test.ts];
    - [Chain]    that chain with its first call as a parameter, and the
                 six steps of the specification it is compared with;
    - [Time]     [timeRegex] of [event.model.test.ts];
    - [Store]    the error taxonomy and the Event collection;
    - [Booking]  [booking.model.ts]: the schema, its email validator and the
                 pre-save hook;
    - [EventModel] the event validator, whose file is not among the sources;
    - [Mongodb]  the connection module ([connectDB] and its cache).

    The definitions come first, the properties follow.

    JavaScript strings are sequences of UTF-16 code units; a code unit is
    a [Z] in [0, 65535]. *)

From Stdlib Require Import ZArith List Bool Lia String Ascii DecimalString.
Import ListNotations.
Open Scope Z_scope.

(* ================================================================== *)
(** ** JavaScript strings *)
(* ================================================================== *)

Module JS.

(** A UTF-16 code unit, and a string. *)
Definition codeunit := Z.
Definition jsstring := list codeunit.

(** Code unit of an ASCII character, and the string of an ASCII literal. *)
Definition ch (a : ascii) : codeunit := Z.of_N (N_of_ascii a).
Definition lit (s : string) : jsstring := map ch (list_ascii_of_string s).

Definition between (lo hi c : codeunit) : bool := (lo <=? c) && (c <=? hi).

(** [\d]: the ten ASCII digits. *)
Definition isDigit (c : codeunit) : bool := between 48 57 c.

(** [\w] without the [u] and [i] flags: [A-Za-z0-9_]. *)
Definition isWordChar (c : codeunit) : bool :=
  between 97 122 c || between 65 90 c || isDigit c || (c =? 95).

(** [\s], and what [trim] strips: WhiteSpace and LineTerminator of
    ECMAScript (TAB, LF, VT, FF, CR, SP, NBSP, U+1680, U+2000..U+200A,
    U+2028, U+2029, U+202F, U+205F, U+3000, U+FEFF). *)
Definition isWhiteSpace (c : codeunit) : bool :=
  between 9 13 c || (c =? 32) || (c =? 160) || (c =? 5760)
  || between 8192 8202 c || (c =? 8232) || (c =? 8233) || (c =? 8239)
  || (c =? 8287) || (c =? 12288) || (c =? 65279).

Definition hyphen : codeunit := 45.
Definition isHyphen (c : codeunit) : bool := c =? hyphen.

(** The Basic Latin and Latin-1 Supplement blocks. *)
Definition latin1 (c : codeunit) : Prop := 0 <= c <= 255.

(** [String.prototype.toLowerCase] on one code unit of the Basic Latin and
    Latin-1 Supplement blocks: [A-Z], [U+00C0..U+00D6] and [U+00D8..U+00DE]
    move up by 32, every other unit of these blocks is its own lower case.
    In these blocks the mapping is unit by unit and free of context.
    Units outside the two blocks are left alone by this definition, which
    [toLowerCase] does not do (U+042F has the lower case U+044F, U+212A
    has [k]): a statement that goes through [lowerUnit] is made for
    [latin1] strings, and what holds of every title is stated on
    [Chain.slugifyWith], where the first call is a parameter. *)
Definition lowerUnit (c : codeunit) : codeunit :=
  if between 65 90 c || between 192 214 c || between 216 222 c
  then c + 32 else c.

Definition toLowerCase (s : jsstring) : jsstring := map lowerUnit s.

(** The string without its longest prefix, or suffix, of units of a class. *)
Fixpoint dropStart (p : codeunit -> bool) (s : jsstring) : jsstring :=
  match s with
  | c :: s' => if p c then dropStart p s' else s
  | [] => []
  end.

Definition dropEnd (p : codeunit -> bool) (s : jsstring) : jsstring :=
  rev (dropStart p (rev s)).

(** [trimStart], [trimEnd] and [trim]. *)
Definition trimStart (s : jsstring) : jsstring := dropStart isWhiteSpace s.

Definition trimEnd (s : jsstring) : jsstring := dropEnd isWhiteSpace s.

Definition trim (s : jsstring) : jsstring := trimEnd (trimStart s).

(** Decidable equality of strings, as [===] on strings. *)
Definition streq (a b : jsstring) : bool :=
  if list_eq_dec Z.eq_dec a b then true else false.

End JS.

Import JS.

(* ================================================================== *)
(** ** Regular expressions *)
(* ================================================================== *)

Module Regex.

(** The fragment of ECMAScript patterns the sources use: character
    classes, concatenation, [|], [?], [+]. No flags are set, so a pattern
    works on code units. *)
Inductive regex : Type :=
| Void : regex
| Eps : regex
| Class (p : codeunit -> bool) : regex
| Cat (r1 r2 : regex) : regex
| Alt (r1 r2 : regex) : regex
| Star (r : regex) : regex.

Definition Chr (c : codeunit) : regex := Class (Z.eqb c).
Definition Opt (r : regex) : regex := Alt r Eps.
Definition Plus (r : regex) : regex := Cat r (Star r).

(** The language of a pattern. *)
Inductive matches : regex -> jsstring -> Prop :=
| MEps : matches Eps []
| MClass p c : p c = true -> matches (Class p) [c]
| MCat r1 r2 s1 s2 : matches r1 s1 -> matches r2 s2 -> matches (Cat r1 r2) (s1 ++ s2)
| MAltL r1 r2 s : matches r1 s -> matches (Alt r1 r2) s
| MAltR r1 r2 s : matches r2 s -> matches (Alt r1 r2) s
| MStar0 r : matches (Star r) []
| MStarS r s1 s2 : matches r s1 -> matches (Star r) s2 -> matches (Star r) (s1 ++ s2).

(** Matching by derivatives. *)
Fixpoint nullable (r : regex) : bool :=
  match r with
  | Void => false
  | Eps => true
  | Class _ => false
  | Cat r1 r2 => nullable r1 && nullable r2
  | Alt r1 r2 => nullable r1 || nullable r2
  | Star _ => true
  end.

Fixpoint deriv (c : codeunit) (r : regex) : regex :=
  match r with
  | Void => Void
  | Eps => Void
  | Class p => if p c then Eps else Void
  | Cat r1 r2 =>
      if nullable r1
      then Alt (Cat (deriv c r1) r2) (deriv c r2)
      else Cat (deriv c r1) r2
  | Alt r1 r2 => Alt (deriv c r1) (deriv c r2)
  | Star r1 => Cat (deriv c r1) (Star r1)
  end.

Fixpoint matchb (r : regex) (s : jsstring) : bool :=
  match s with
  | [] => nullable r
  | c :: s' => matchb (deriv c r) s'
  end.

(** [/^r$/.test(s)]: with both anchors and no [m] flag the whole string
    has to be in the language of [r]. *)
Definition test (r : regex) (s : jsstring) : bool := matchb r s.

End Regex.

Import Regex.

(* ================================================================== *)
(** ** Slug derivation *)
(* ================================================================== *)

Module Slug.

(** The chain of [event.model.test.ts], a replica of the pre-save hook:
<<
  title.toLowerCase().trim()
       .replace(/[^\w\s-]/g, '')
       .replace(/\s+/g, '-')
       .replace(/-+/g, '-')
       .replace(/^-+|-+$/g, '')
>> *)

(** The class [[\w\s-]]; [/[^\w\s-]/g] matches every unit outside it, one
    at a time. *)
Definition keptUnit (c : codeunit) : bool :=
  isWordChar c || isWhiteSpace c || isHyphen c.

(** [.replace(/[^\w\s-]/g, '')] *)
Definition removeSpecials (s : jsstring) : jsstring := filter keptUnit s.

(** [.replace(/[p]+/g, rep)]: a global replace scans from the left and [+]
    is greedy, so every maximal run of units of the class is replaced by
    one [rep]. [inRun] tells that the unit before belongs to the run being
    replaced. *)
Fixpoint replaceRuns (p : codeunit -> bool) (rep : jsstring)
                     (inRun : bool) (s : jsstring) : jsstring :=
  match s with
  | [] => []
  | c :: s' =>
      if p c
      then (if inRun then [] else rep) ++ replaceRuns p rep true s'
      else c :: replaceRuns p rep false s'
  end.

(** [.replace(/\s+/g, '-')] *)
Definition collapseWhitespace (s : jsstring) : jsstring :=
  replaceRuns isWhiteSpace [hyphen] false s.

(** [.replace(/-+/g, '-')] *)
Definition collapseHyphens (s : jsstring) : jsstring :=
  replaceRuns isHyphen [hyphen] false s.

(** [.replace(/^-+|-+$/g, '')]: the first alternative matches the run of
    hyphens at index 0, the second one the run of hyphens that reaches the
    end of the string; both are removed. *)
Definition stripHyphens (s : jsstring) : jsstring :=
  dropEnd isHyphen (dropStart isHyphen s).

Definition slugify (title : jsstring) : jsstring :=
  stripHyphens
    (collapseHyphens
       (collapseWhitespace
          (removeSpecials
             (trim (toLowerCase title))))).

(** What the specification calls a Unicode word character, on the Basic
    Latin and Latin-1 Supplement blocks: a letter (general category L), a
    digit or the underscore. The letters of Latin-1 Supplement are U+00AA,
    U+00B5, U+00BA, U+00C0..U+00D6, U+00D8..U+00F6 and U+00F8..U+00FF. *)
Definition isUnicodeWordChar (c : codeunit) : bool :=
  isWordChar c || (c =? 170) || (c =? 181) || (c =? 186)
  || between 192 214 c || between 216 246 c || between 248 255 c.


End Slug.

(* ================================================================== *)
(** ** The chain on every title, and the six steps *)
(* ================================================================== *)

Module Chain.

Import Slug.

(** The chain of [Slug.slugify] with its first call as a parameter:
    [lower title] stands for [title.toLowerCase()], the five calls that
    follow are the ones of the source. [Slug.slugify] is
    [slugifyWith toLowerCase]; what is proved of [slugifyWith lower] for
    every [lower] holds of the chain on every title, whatever
    [String.prototype.toLowerCase] gives on it. *)
Definition slugifyWith (lower : jsstring -> jsstring) (title : jsstring) : jsstring :=
  stripHyphens
    (collapseHyphens
       (collapseWhitespace
          (removeSpecials
             (trim (lower title))))).

(** The six steps in the words of the specification (section 4.1), as
    relations between the string a step receives and the one it gives;
    the chain is compared with them. *)

(** [s] does not start, or end, with a unit of the class. *)
Definition startsOutside (p : codeunit -> bool) (s : jsstring) : Prop :=
  match s with
  | c :: _ => p c = false
  | [] => True
  end.

Definition endsOutside (p : codeunit -> bool) (s : jsstring) : Prop :=
  startsOutside p (rev s).

(** Steps 2 and 6, trim or strip the leading and trailing units of a
    class: [out] is [s] without a prefix and a suffix made of units of the
    class, and neither starts nor ends with such a unit. *)
Definition stripped (p : codeunit -> bool) (s out : jsstring) : Prop :=
  exists a b,
    s = a ++ out ++ b /\ forallb p a = true /\ forallb p b = true /\
    startsOutside p out /\ endsOutside p out.

(** Step 3, remove every character that is not in a class: [out] is [s]
    without the units outside the class, the others in their order. *)
Inductive keeping (p : codeunit -> bool) : jsstring -> jsstring -> Prop :=
| keeping_nil : keeping p [] []
| keeping_in c s out :
    p c = true -> keeping p s out -> keeping p (c :: s) (c :: out)
| keeping_out c s out :
    p c = false -> keeping p s out -> keeping p (c :: s) out.

(** Steps 4 and 5, collapse the runs of a class into a single [h]: a unit
    outside the class is copied, and a run of units of the class that
    goes on until the end of the string or a unit outside the class gives
    one [h]. *)
Inductive collapsed (p : codeunit -> bool) (h : codeunit) : jsstring -> jsstring -> Prop :=
| collapsed_nil : collapsed p h [] []
| collapsed_unit c s out :
    p c = false -> collapsed p h s out -> collapsed p h (c :: s) (c :: out)
| collapsed_run run s out :
    run <> [] -> forallb p run = true -> startsOutside p s ->
    collapsed p h s out -> collapsed p h (run ++ s) (h :: out).

(** The six steps, from the title to the slug; a word character is one of
    [[A-Za-z0-9_]]. *)
Definition sixSteps (lower : jsstring -> jsstring) (title out : jsstring) : Prop :=
  exists s1 s2 s3 s4 s5,
    s1 = lower title /\
    stripped isWhiteSpace s1 s2 /\
    keeping (fun c => isWordChar c || isWhiteSpace c || isHyphen c) s2 s3 /\
    collapsed isWhiteSpace hyphen s3 s4 /\
    collapsed isHyphen hyphen s4 s5 /\
    stripped isHyphen s5 out.

End Chain.

(* ================================================================== *)
(** ** Time validation *)
(* ================================================================== *)

Module Time.

Definition colon : codeunit := 58.

(** [const timeRegex = /^([0-1]?[0-9]|2[0-3]):[0-5][0-9]$/] *)
Definition timeRegex : regex :=
  Cat (Alt (Cat (Opt (Class (between 48 49))) (Class (between 48 57)))
           (Cat (Chr 50) (Class (between 48 51))))
      (Cat (Chr colon)
           (Cat (Class (between 48 53)) (Class (between 48 57)))).

(** [timeRegex.test(time)] *)
Definition timeValidator (time : jsstring) : bool := test timeRegex time.

(** The digit of a number below ten, and a number below one hundred on
    two digits. *)
Definition digit (n : Z) : codeunit := 48 + n.
Definition pad2 (n : Z) : jsstring := [digit (n / 10); digit (n mod 10)].

(** The two-digit 24-hour shape HH:MM of the data model: hours 00..23 and
    minutes 00..59, each on two digits. *)
Definition HHMM (s : jsstring) : Prop :=
  exists h m, 0 <= h <= 23 /\ 0 <= m <= 59 /\ s = pad2 h ++ colon :: pad2 m.

(** The same with the hour on one digit: H:MM for hours 0..9. *)
Definition HMM (s : jsstring) : Prop :=
  exists h m, 0 <= h <= 9 /\ 0 <= m <= 59 /\ s = digit h :: colon :: pad2 m.

(** The strings of the pattern, unit by unit: an hour on one digit, an
    hour [0d] or [1d], or an hour [20] to [23]; then the colon and two
    minute digits, the first one at most [5]. *)
Definition timeShape (s : jsstring) : Prop :=
  exists hour c e,
    s = hour ++ [colon; c; e] /\ 48 <= c <= 53 /\ 48 <= e <= 57 /\
    ((exists d, hour = [d] /\ 48 <= d <= 57)
     \/ (exists a d, hour = [a; d] /\ 48 <= a <= 49 /\ 48 <= d <= 57)
     \/ (exists d, hour = [50; d] /\ 48 <= d <= 51)).

End Time.

(* ================================================================== *)
(** ** Validation errors and the document store *)
(* ================================================================== *)

Module Store.

(** The error taxonomy. The messages of the sources map to it as follows:
    ['Event ID is required'] is [MissingField "eventId"],
    ['Email is required'] is [MissingField "email"],
    ['Invalid email format'] is [InvalidFormat "email"],
    ['Referenced event does not exist'] is [DanglingReference "eventId"]. *)
Inductive ValidationError : Type :=
| MissingField (name : string)
| InvalidFormat (field : string)
| InvalidEnum (field : string) (allowed : list jsstring)
| EmptyCollection (field : string)
| DanglingReference (field : string)
| UniqueConstraintViolation (field : string).

(** A failed operation carries the violations it reports. *)
Definition Result (A : Type) : Type := (A + list ValidationError)%type.

Definition failsWith {A : Type} (e : ValidationError) (r : Result A) : Prop :=
  match r with
  | inl _ => False
  | inr errs => In e errs
  end.

Definition ObjectId := Z.

(** The fields of [IEvent] ([index.test.ts], [event.model.test.ts]). *)
Record EventFields : Type := {
  title : jsstring;
  slug : jsstring;
  description : jsstring;
  overview : jsstring;
  image : jsstring;
  venue : jsstring;
  location : jsstring;
  date : jsstring;
  time : jsstring;
  mode : jsstring;
  audience : jsstring;
  agenda : list jsstring;
  organizer : jsstring;
  tags : list jsstring
}.

(** A stored Event: the fields, the identity and the timestamps the store
    assigns. *)
Record IEvent : Type := {
  _id : ObjectId;
  fields : EventFields;
  createdAt : Z;
  updatedAt : Z
}.

(** The Event collection, in insertion order. *)
Definition Events := list IEvent.

(** [Event.findById(id)] *)
Definition findById (id : ObjectId) (events : Events) : option IEvent :=
  find (fun e => _id e =? id) events.

(** [Event.findOne({ slug })] *)
Definition findBySlug (s : jsstring) (events : Events) : option IEvent :=
  find (fun e => streq (slug (fields e)) s) events.


(** The Event of the examples ([index.test.ts]), stored under [id]. *)
Definition testFields : EventFields :=
  {| title := lit "Test"; slug := lit "test";
     description := lit "Test desc"; overview := lit "Test overview";
     image := lit "/test.png"; venue := lit "Test Venue";
     location := lit "Test Location"; date := lit "2025-12-01";
     time := lit "09:00"; mode := lit "online"; audience := lit "Developers";
     agenda := [lit "Item 1"]; organizer := lit "Test Org";
     tags := [lit "tech"] |}.

Definition testEvent (id : ObjectId) : IEvent :=
  {| _id := id; fields := testFields; createdAt := 0; updatedAt := 0 |}.

End Store.

Import Store.

(* ================================================================== *)
(** ** The Booking model ([booking.model.ts]) *)
(* ================================================================== *)

Module Booking.

Definition at_sign : codeunit := 64.
Definition dot : codeunit := 46.

(** The class [[^\s@]]. *)
Definition emailUnit (c : codeunit) : bool :=
  negb (isWhiteSpace c) && negb (c =? at_sign).

(** [const emailRegex = /^[^\s@]+@[^\s@]+\.[^\s@]+$/] *)
Definition emailRegex : regex :=
  Cat (Plus (Class emailUnit))
      (Cat (Chr at_sign)
           (Cat (Plus (Class emailUnit))
                (Cat (Chr dot) (Plus (Class emailUnit))))).

(** The shape [local@domain.tld] in the specification's words: three
    non-empty parts without whitespace and without [@], the first two
    separated by [@] and the last two by a dot. *)
Definition emailShape (v : jsstring) : Prop :=
  exists loc dom tld,
    v = loc ++ at_sign :: dom ++ dot :: tld /\
    loc <> [] /\ dom <> [] /\ tld <> [] /\
    forallb emailUnit loc = true /\ forallb emailUnit dom = true /\
    forallb emailUnit tld = true.

(** [validator: (v: string) => emailRegex.test(v)] *)
Definition emailValidator (v : jsstring) : bool := test emailRegex v.

(** The setters of the [email] path, [trim: true] and [lowercase: true]. *)
Definition setEmail (v : jsstring) : jsstring := toLowerCase (trim v).

(** A Booking candidate: the values the caller assigns to the two paths,
    a path being absent when it is [undefined] or [null], and what the
    document answers to [isModified('eventId')]. *)
Record BookingInput : Type := {
  inEventId : option ObjectId;
  inEmail : option jsstring;
  inEventIdModified : bool
}.

(** A candidate on first creation, [new Booking({ eventId, email })]:
    every path that is given is marked as modified. *)
Definition newBooking (eventId : option ObjectId) (email : option jsstring)
  : BookingInput :=
  {| inEventId := eventId;
     inEmail := email;
     inEventIdModified := match eventId with Some _ => true | None => false end |}.

(** [IBooking], the document once its paths hold valid values. *)
Record IBooking : Type := {
  eventId : ObjectId;
  email : jsstring;
  eventIdModified : bool
}.

(** Validation of the [eventId] path: [required: [true, 'Event ID is
    required']]. *)
Definition validateEventId (v : option ObjectId) : list ValidationError :=
  match v with
  | None => [MissingField "eventId"]
  | Some _ => []
  end.

(** Validation of the [email] path. The [required] validator comes first
    and rejects an absent value and the empty string; a path reports the
    first validator that fails, so the pattern is tried on non-empty
    strings only. *)
Definition validateEmail (v : option jsstring) : list ValidationError :=
  match v with
  | None => [MissingField "email"]
  | Some [] => [MissingField "email"]
  | Some v => if emailValidator v then [] else [InvalidFormat "email"]
  end.

(** Schema validation: the setters have run when the paths were assigned;
    every path reports its own error. (The case with no error and a path
    without a value does not arise, see [validate_reports].) *)
Definition validate (c : BookingInput) : Result IBooking :=
  let em := option_map setEmail (inEmail c) in
  match validateEventId (inEventId c) ++ validateEmail em with
  | [] =>
      match inEventId c, em with
      | Some id, Some e =>
          inl {| eventId := id; email := e;
                 eventIdModified := inEventIdModified c |}
      | _, _ => inr []
      end
  | errs => inr errs
  end.

(** The reads an operation makes on the store. *)
Inductive Read : Type :=
| FindById (id : ObjectId).

(** The pre-save hook:
<<
  if (this.isModified('eventId')) {
    const eventExists = await Event.findById(this.eventId);
    if (!eventExists) throw new Error('Referenced event does not exist');
  }
  next();
>>
    It returns its outcome and the reads it made. *)
Definition preSave (events : Events) (this : IBooking)
  : Result IBooking * list Read :=
  if eventIdModified this then
    match findById (eventId this) events with
    | None => (inr [DanglingReference "eventId"], [FindById (eventId this)])
    | Some _ => (inl this, [FindById (eventId this)])
    end
  else (inl this, []).

(** [prepare]: what [save()] does before the document is written. The
    schema validation is the first pre-save step; the hook above runs
    once validation has passed. *)
Definition prepare (events : Events) (c : BookingInput)
  : Result IBooking * list Read :=
  match validate c with
  | inl doc => preSave events doc
  | inr errs => (inr errs, [])
  end.

(** A first creation with an event identity and an email written as a
    literal. *)
Definition candidate (id : ObjectId) (email : string) : BookingInput :=
  newBooking (Some id) (Some (lit email)).

End Booking.

(* ================================================================== *)
(** ** The Event validator *)
(* ================================================================== *)

Module EventModel.

(** Modelled from the spec: the values a caller may supply for a field
    of an Event candidate (event.model.ts is not among the sources); the
    tests call the collection validators on arrays, a string, [null] and
    [undefined]. *)
Inductive jsvalue : Type :=
| VUndefined
| VNull
| VBoolean (b : bool)
| VNumber (n : Z)
| VString (s : jsstring)
| VArray (items : list jsstring).

(** Modelled from the spec: an Event candidate, the fields of the data
    model but the slug and the timestamps (event.model.ts is not among
    the sources). A string field is absent when it is [None]. *)
Record EventInput : Type := {
  inTitle : option jsstring;
  inDescription : option jsstring;
  inOverview : option jsstring;
  inImage : option jsstring;
  inVenue : option jsstring;
  inLocation : option jsstring;
  inDate : option jsstring;
  inTime : option jsstring;
  inMode : option jsstring;
  inAudience : option jsstring;
  inAgenda : jsvalue;
  inOrganizer : option jsstring;
  inTags : jsvalue
}.

(** Modelled from the spec: the required-field check of the Event
    validator (event.model.ts is not among the sources). A required
    string field fails with [MissingField] when it is absent or empty
    (after trimming, for a trimmed field). *)
Definition requiredString (name : string) (normalize : jsstring -> jsstring)
                          (v : option jsstring) : Result jsstring :=
  match option_map normalize v with
  | None => inr [MissingField name]
  | Some [] => inr [MissingField name]
  | Some s => inl s
  end.

(** Modelled from the spec: the three values of [mode] (event.model.ts is
    not among the sources; the tests expect this list). *)
Definition allowedModes : list jsstring :=
  [lit "online"; lit "offline"; lit "hybrid"].

(** Modelled from the spec: the [mode] check of the Event validator
    (event.model.ts is not among the sources): required, lowercased, one
    of the three enum values or else [InvalidEnum]. *)
Definition checkMode (v : option jsstring) : Result jsstring :=
  match requiredString "mode" toLowerCase v with
  | inl m =>
      if existsb (streq m) allowedModes then inl m
      else inr [InvalidEnum "mode" allowedModes]
  | inr errs => inr errs
  end.

(** Modelled from the spec: the [time] check of the Event validator
    (event.model.ts is not among the sources): required, and
    [InvalidFormat] when the value fails the time pattern. *)
Definition checkTime (v : option jsstring) : Result jsstring :=
  match requiredString "time" (fun s => s) v with
  | inl t => if Time.timeValidator t then inl t else inr [InvalidFormat "time"]
  | inr errs => inr errs
  end.

(** Modelled from the spec: the collection check of the Event validator
    for [agenda] and [tags] (the validators of event.model.ts are not
    among the sources; event.model.test.ts calls them on [[]],
    [['Item 1']], ['not an array'], [null] and [undefined]). The value
    must be a non-empty sequence of strings; an empty sequence, [null] or
    a value that is not a sequence fails with [EmptyCollection field]. *)
Definition checkCollection (field : string) (v : jsvalue)
  : Result (list jsstring) :=
  match v with
  | VArray (x :: items) => inl (x :: items)
  | _ => inr [EmptyCollection field]
  end.

(** [Array.isArray(v)] *)
Definition isSequence (v : jsvalue) : bool :=
  match v with
  | VArray _ => true
  | _ => false
  end.

(** Modelled from the spec: the values the collection check rejects, in
    the specification's words an empty sequence, [null], or a value that
    is not a sequence (event.model.ts is not among the sources). *)
Definition emptyOrNotSequence (v : jsvalue) : Prop :=
  v = VArray [] \/ v = VNull \/ isSequence v = false.

(** The violations a check reports, and the value it yields. *)
Definition errorsOf {A : Type} (r : Result A) : list ValidationError :=
  match r with
  | inl _ => []
  | inr errs => errs
  end.

Definition valueOf {A : Type} (d : A) (r : Result A) : A :=
  match r with
  | inl a => a
  | inr _ => d
  end.

(** Modelled from the spec: the field checks of the Event validator's
    [prepare] (event.model.ts is not among the sources), in the order of
    the data model's table. Every field reports its own violation, which
    section 7 of the specification allows; a validator that fails fast
    reports the head of this list. *)
Definition violations (c : EventInput) : list ValidationError :=
  errorsOf (requiredString "title" trim (inTitle c))
  ++ errorsOf (requiredString "description" trim (inDescription c))
  ++ errorsOf (requiredString "overview" trim (inOverview c))
  ++ errorsOf (requiredString "image" trim (inImage c))
  ++ errorsOf (requiredString "venue" trim (inVenue c))
  ++ errorsOf (requiredString "location" trim (inLocation c))
  ++ errorsOf (requiredString "date" (fun s => s) (inDate c))
  ++ errorsOf (checkTime (inTime c))
  ++ errorsOf (checkMode (inMode c))
  ++ errorsOf (requiredString "audience" trim (inAudience c))
  ++ errorsOf (checkCollection "agenda" (inAgenda c))
  ++ errorsOf (requiredString "organizer" trim (inOrganizer c))
  ++ errorsOf (checkCollection "tags" (inTags c)).

(** The disambiguation token, [Date.now()] in decimal
    ([`${baseSlug}-${mockDate}`] in event.model.test.ts). *)
Definition token (now : Z) : jsstring :=
  lit (NilZero.string_of_int (Z.to_int now)).

(** Modelled from the spec: the uniqueness step of the Event validator
    (event.model.ts is not among the sources): query the store for a
    record with the same slug; if one is found append ["-" ++ token],
    the token derived from the current time, and check again. [now k] is
    the clock at its [k]-th reading. The recursion is on [fuel];
    [uniqueSlug_fresh] shows that with the fuel [prepare] gives it the
    loop always leaves because no record was found. *)
Fixpoint uniqueSlug (fuel : nat) (events : Events) (now : nat -> Z)
                    (k : nat) (s : jsstring) : jsstring :=
  match findBySlug s events, fuel with
  | Some _, S fuel' =>
      uniqueSlug fuel' events now (S k) (s ++ hyphen :: token (now k))
  | _, _ => s
  end.


(** Modelled from the spec: [prepare] of the Event validator
    (event.model.ts is not among the sources): the field checks, the
    normalization of the fields, the slug derived from the title and made
    unique against the store. *)
Definition prepare (events : Events) (now : nat -> Z) (c : EventInput)
  : Result EventFields :=
  match violations c with
  | [] =>
      let t := valueOf [] (requiredString "title" trim (inTitle c)) in
      inl {| title := t;
             slug := uniqueSlug (List.length events) events now 0 (Slug.slugify t);
             description := valueOf [] (requiredString "description" trim (inDescription c));
             overview := valueOf [] (requiredString "overview" trim (inOverview c));
             image := valueOf [] (requiredString "image" trim (inImage c));
             venue := valueOf [] (requiredString "venue" trim (inVenue c));
             location := valueOf [] (requiredString "location" trim (inLocation c));
             date := valueOf [] (requiredString "date" (fun s => s) (inDate c));
             time := valueOf [] (checkTime (inTime c));
             mode := valueOf [] (checkMode (inMode c));
             audience := valueOf [] (requiredString "audience" trim (inAudience c));
             agenda := valueOf [] (checkCollection "agenda" (inAgenda c));
             organizer := valueOf [] (requiredString "organizer" trim (inOrganizer c));
             tags := valueOf [] (checkCollection "tags" (inTags c)) |}
  | errs => inr errs
  end.





End EventModel.

(* ================================================================== *)
(** ** The connection module ([lib/mongodb.ts]) *)
(* ================================================================== *)

Module Mongodb.

(** A Mongoose instance, by identity, and the way a promise settles. *)
Definition handle := Z.

Inductive settled : Type :=
| Fulfilled (h : handle)
| Rejected (reason : string).

Inductive promiseState : Type :=
| Pending
| Settled (o : settled).

(** [interface MongooseCache { conn; promise }]. A promise is named by
    its index among the promises [mongoose.connect(...).then(...)] has
    made, so there are as many promises as connection attempts. *)
Record MongooseCache : Type := {
  conn : option handle;
  promise : option nat
}.

(** The module once loaded. [cached] is the one object that the module
    variable and [global.mongoose] both refer to. A call of [connectDB]
    is named by its index. [waiting] holds the calls suspended at their
    [await] on a pending promise, as pairs of a call and a promise in the
    order of arrival; [jobs] is the queue of the continuations whose
    promise has settled; [results] lists the calls that have completed,
    with the instance returned or the error thrown. *)
Record state : Type := {
  MONGODB_URI : jsstring;
  cached : MongooseCache;
  promises : list promiseState;
  waiting : list (nat * nat);
  jobs : list (nat * nat);
  results : list (nat * settled);
  calls : nat
}.

(** The message of the error thrown at load time. *)
Definition missingUri : string :=
  "Please define the MONGODB_URI environment variable inside .env.local".

(** Loading either throws or yields the module, whose only export is
    [connectDB]. *)
Inductive loaded : Type :=
| Throws (message : string)
| Exports (s : state).

(** Loading the module:
<<
  const MONGODB_URI = process.env.MONGODB_URI;
  if (!MONGODB_URI) { throw new Error('Please define ...'); }
  let cached = global.mongoose || { conn: null, promise: null };
  if (!global.mongoose) { global.mongoose = cached; }
>>
    An environment variable is a string or [undefined]; [undefined] and
    the empty string are the falsy ones. [heap] holds the promises that
    exist when the module is loaded. *)
Definition loadModule (env : option jsstring)
                      (global_mongoose : option MongooseCache)
                      (heap : list promiseState) : loaded :=
  match env with
  | Some (c :: u) =>
      Exports {| MONGODB_URI := c :: u;
                 cached := match global_mongoose with
                           | Some g => g
                           | None => {| conn := None; promise := None |}
                           end;
                 promises := heap;
                 waiting := [];
                 jobs := [];
                 results := [];
                 calls := 0 |}
  | _ => Throws missingUri
  end.

(** Assignments to the fields of [cached], and the completion of a call. *)
Definition setCached (c : MongooseCache) (s : state) : state :=
  {| MONGODB_URI := MONGODB_URI s; cached := c; promises := promises s;
     waiting := waiting s; jobs := jobs s; results := results s;
     calls := calls s |}.

Definition finish (call : nat) (o : settled) (s : state) : state :=
  {| MONGODB_URI := MONGODB_URI s; cached := cached s; promises := promises s;
     waiting := waiting s; jobs := jobs s;
     results := results s ++ [(call, o)]; calls := calls s |}.

(** [mongoose.connect(MONGODB_URI, opts).then(...)]: a new pending
    promise. *)
Definition connect (s : state) : nat * state :=
  (List.length (promises s),
   {| MONGODB_URI := MONGODB_URI s; cached := cached s;
      promises := promises s ++ [Pending];
      waiting := waiting s; jobs := jobs s; results := results s;
      calls := calls s |}).

(** [await p]: the rest of the call is a reaction of [p]. It is queued as
    a job at once when [p] has settled, and kept with [p] while [p] is
    pending. *)
Definition await (call p : nat) (s : state) : state :=
  match nth_error (promises s) p with
  | Some Pending =>
      {| MONGODB_URI := MONGODB_URI s; cached := cached s; promises := promises s;
         waiting := waiting s ++ [(call, p)]; jobs := jobs s;
         results := results s; calls := calls s |}
  | _ =>
      {| MONGODB_URI := MONGODB_URI s; cached := cached s; promises := promises s;
         waiting := waiting s; jobs := jobs s ++ [(call, p)];
         results := results s; calls := calls s |}
  end.

(** The index of a new call. *)
Definition newCall (s : state) : nat * state :=
  (calls s,
   {| MONGODB_URI := MONGODB_URI s; cached := cached s; promises := promises s;
      waiting := waiting s; jobs := jobs s; results := results s;
      calls := S (calls s) |}).

(** A call of [connectDB], up to its [return] or its [await]:
<<
  if (cached.conn) { return cached.conn; }
  if (!cached.promise) {
    cached.promise = mongoose.connect(MONGODB_URI, opts).then(...);
  }
  try { cached.conn = await cached.promise; } ...
>> *)
Definition connectDB (s : state) : state :=
  let (call, s) := newCall s in
  match conn (cached s) with
  | Some h => finish call (Fulfilled h) s
  | None =>
      match promise (cached s) with
      | Some p => await call p s
      | None =>
          let (p, s) := connect s in
          await call p
            (setCached {| conn := conn (cached s); promise := Some p |} s)
      end
  end.

(** The rest of a call, run as a job once the awaited promise [p] has
    settled:
<<
  try { cached.conn = await cached.promise; }
  catch (error) { cached.promise = null; throw error; }
  return cached.conn;
>> *)
Definition resume (call p : nat) (s : state) : state :=
  match nth_error (promises s) p with
  | Some (Settled (Fulfilled h)) =>
      finish call (Fulfilled h)
        (setCached {| conn := Some h; promise := promise (cached s) |} s)
  | Some (Settled (Rejected reason)) =>
      finish call (Rejected reason)
        (setCached {| conn := conn (cached s); promise := None |} s)
  | _ => s
  end.

(** The list with its [n]-th element replaced. *)
Fixpoint setNth {A : Type} (n : nat) (a : A) (l : list A) : list A :=
  match l, n with
  | [], _ => []
  | _ :: l', O => a :: l'
  | x :: l', S n' => x :: setNth n' a l'
  end.

(** The suspended call [w] awaits the promise [p]. *)
Definition awaits (p : nat) (w : nat * nat) : bool := Nat.eqb (snd w) p.

(** The promise [p] settles: its reactions are queued as jobs, in the
    order in which they were added. A promise settles once. *)
Definition settle (p : nat) (o : settled) (s : state) : option state :=
  match nth_error (promises s) p with
  | Some Pending =>
      Some {| MONGODB_URI := MONGODB_URI s; cached := cached s;
              promises := setNth p (Settled o) (promises s);
              waiting := filter (fun w => negb (awaits p w)) (waiting s);
              jobs := jobs s ++ filter (awaits p) (waiting s);
              results := results s; calls := calls s |}
  | _ => None
  end.

(** The first job of the queue runs. *)
Definition tick (s : state) : option state :=
  match jobs s with
  | [] => None
  | (call, p) :: rest =>
      Some (resume call p
              {| MONGODB_URI := MONGODB_URI s; cached := cached s;
                 promises := promises s; waiting := waiting s; jobs := rest;
                 results := results s; calls := calls s |})
  end.

(** What can happen to the module: [connectDB] is called, a connection
    attempt settles, a job runs. *)
Inductive event : Type :=
| Call
| Settle (p : nat) (o : settled)
| Tick.

Definition step (s : state) (e : event) : option state :=
  match e with
  | Call => Some (connectDB s)
  | Settle p o => settle p o s
  | Tick => tick s
  end.

Fixpoint run (s : state) (es : list event) : option state :=
  match es with
  | [] => Some s
  | e :: es' =>
      match step s e with
      | Some s' => run s' es'
      | None => None
      end
  end.

(** The connection attempts in flight: the promises still pending. *)
Fixpoint pendingFrom (i : nat) (ps : list promiseState) : list nat :=
  match ps with
  | [] => []
  | Pending :: ps' => i :: pendingFrom (S i) ps'
  | Settled _ :: ps' => pendingFrom (S i) ps'
  end.

Definition inFlight (s : state) : list nat := pendingFrom 0 (promises s).

(** The number of times [mongoose.connect] has been called. *)
Definition attempts (s : state) : nat := List.length (promises s).

(** A module freshly loaded in a process that has made no promise. *)
Definition fresh (uri : jsstring) : state :=
  {| MONGODB_URI := uri;
     cached := {| conn := None; promise := None |};
     promises := []; waiting := []; jobs := []; results := []; calls := 0 |}.

(** A schedule is orderly when [connectDB] is only called while the job
    queue is empty, that is, never between the settlement of an attempt
    and the resumption of the calls that await it. *)
Fixpoint orderly (s : state) (es : list event) : bool :=
  match es with
  | [] => true
  | e :: es' =>
      match e, jobs s with
      | Call, _ :: _ => false
      | _, _ =>
          match step s e with
          | Some s' => orderly s' es'
          | None => true
          end
      end
  end.

(** The promise [p] exists and has not settled. *)
Definition pending (s : state) (p : nat) : Prop :=
  nth_error (promises s) p = Some Pending.

(** What holds of the module along an orderly schedule. *)
Record consistent (s : state) : Prop := {
  inv_cached : forall p, pending s p -> promise (cached s) = Some p;
  inv_waiting : forall c p, In (c, p) (waiting s) -> pending s p;
  inv_waiter : forall p, pending s p -> exists c, In (c, p) (waiting s);
  inv_jobs : forall c p, In (c, p) (jobs s) ->
                         exists o, nth_error (promises s) p = Some (Settled o);
  inv_drain : jobs s <> [] -> forall p, ~ pending s p;
  inv_same : forall c p c' p', In (c, p) (jobs s) -> In (c', p') (jobs s) -> p = p';
  inv_conn : forall h, conn (cached s) = Some h ->
                       (forall p, ~ pending s p) /\
                       (forall c p, In (c, p) (jobs s) ->
                                    nth_error (promises s) p = Some (Settled (Fulfilled h)));
  inv_idle : jobs s = [] -> conn (cached s) = None ->
             forall p, promise (cached s) = Some p -> pending s p
}.

(** The URI of the tests, and the schedule on which a connection attempt
    is started while another one is in flight: a call, the rejection of
    its attempt, a second call before the first one has resumed, the
    first call resuming, a third call, the second call resuming. *)
Definition testUri : jsstring := lit "mongodb://localhost:27017/test".

Definition staleSchedule : list event :=
  [Call; Settle 0 (Rejected "Connection failed"); Call; Tick; Call; Tick].

End Mongodb.

(* ================================================================== *)
(** ** The featured events ([lib/constants.ts]) *)
(* ================================================================== *)

From Stdlib Require Import Permutation.

Module Constants.

(** [export type EventItem] *)
Record EventItem : Type := {
  title : jsstring;
  image : jsstring;
  slug : jsstring;
  location : jsstring;
  date : jsstring;
  time : jsstring
}.

Definition item (t i s l d h : string) : EventItem :=
  {| title := lit t; image := lit i; slug := lit s; location := lit l;
     date := lit d; time := lit h |}.

(** [export const events: EventItem[]] *)
Definition events : list EventItem :=
  [ item "AWS re:Invent 2025" "/images/event1.png" "aws-reinvent-2025"
         "Las Vegas, NV, USA" "2025-12-01" "09:00 AM";
    item "GitHub Universe 2025" "/images/event2.png" "github-universe-2025"
         "San Francisco, CA, USA" "2025-11-05" "10:00 AM";
    item "Google Cloud Next 2026" "/images/event3.png" "google-cloud-next-2026"
         "San Jose, CA, USA" "2026-04-07" "09:30 AM";
    item "Microsoft Build 2026" "/images/event4.png" "microsoft-build-2026"
         "Seattle, WA, USA" "2026-05-19" "09:00 AM";
    item "PyCon US 2026" "/images/event5.png" "pycon-us-2026"
         "Pittsburgh, PA, USA" "2026-05-01" "08:30 AM";
    item "JSConf EU 2026" "/images/event6.png" "jsconf-eu-2026"
         "Berlin, Germany" "2026-06-12" "10:00 AM";
    item "ETHGlobal Hackathon: Lisbon 2025" "/images/event-full.png"
         "ethglobal-lisbon-2025" "Lisbon, Portugal" "2025-11-22" "09:00 AM";
    item "React Summit 2026" "/images/event3.png" "react-summit-2026"
         "Amsterdam, Netherlands" "2026-06-26" "09:30 AM" ].

End Constants.

(* ================================================================== *)
(** ** Notions used to state further properties *)
(* ================================================================== *)

Module Shape.

(** Two units of the class [p] follow each other somewhere in [s]. *)
Fixpoint hasAdjacent (p : codeunit -> bool) (s : jsstring) : bool :=
  match s with
  | c :: s' =>
      match s' with
      | d :: _ => (p c && p d) || hasAdjacent p s'
      | [] => false
      end
  | [] => false
  end.

(** [strip p]: the string without its leading and its trailing units of
    the class, as [trim] and the last step of the slug chain do. *)
Definition strip (p : codeunit -> bool) (s : jsstring) : jsstring :=
  dropEnd p (dropStart p s).

(** Every class of the pattern gives the same answer on [f c] as on [c]. *)
Fixpoint respects (f : codeunit -> codeunit) (r : regex) : Prop :=
  match r with
  | Class p => forall c, p (f c) = p c
  | Cat r1 r2 => respects f r1 /\ respects f r2
  | Alt r1 r2 => respects f r1 /\ respects f r2
  | Star r1 => respects f r1
  | Void => True
  | Eps => True
  end.

End Shape.

Module Schedule.

Import Mongodb.

(** The calls the module knows of: completed, suspended or queued. *)
Definition callIds (s : state) : list nat :=
  map fst (results s) ++ map fst (waiting s) ++ map fst (jobs s).

(** Some connection attempt has settled as [o]. *)
Definition settledAs (s : state) (o : settled) : Prop :=
  exists p, nth_error (promises s) p = Some (Settled o).

(** What holds of the module along every schedule. *)
Record wellformed (s : state) : Prop := {
  wf_ids : Permutation (callIds s) (seq 0 (calls s));
  wf_waiting : forall c p, In (c, p) (waiting s) -> pending s p;
  wf_jobs : forall c p, In (c, p) (jobs s) ->
                        exists o, nth_error (promises s) p = Some (Settled o);
  wf_cached : forall p, promise (cached s) = Some p ->
                        (p < List.length (promises s))%nat;
  wf_results : forall c o, In (c, o) (results s) -> settledAs s o;
  wf_conn : forall h, conn (cached s) = Some h -> settledAs s (Fulfilled h);
  wf_attempts : (attempts s <= calls s)%nat
}.

End Schedule.

(* ================================================================== *)
(** * Properties *)
(* ================================================================== *)

Import Regex.

(** ** Strings *)



Lemma between_spec (lo hi c : codeunit) : between lo hi c = true <-> lo <= c <= hi.
Proof. unfold between. rewrite andb_true_iff, !Z.leb_le. reflexivity. Qed.

Lemma between_false (lo hi c : codeunit) : between lo hi c = false <-> c < lo \/ hi < c.
Proof.
  unfold between. rewrite andb_false_iff, !Z.leb_gt. reflexivity.
Qed.

(** ** The matcher decides the language of a pattern *)

Lemma nullable_spec (r : regex) : nullable r = true <-> matches r [].
Proof.
  induction r; simpl.
  - split; [discriminate | intros H; inversion H].
  - split; [constructor | reflexivity].
  - split; [discriminate | intros H; inversion H].
  - rewrite andb_true_iff, IHr1, IHr2. split.
    + intros [H1 H2]. apply (MCat _ _ [] []); assumption.
    + intros H. inversion H as [| | ? ? s1 s2 H1 H2 | | | |]; subst.
      match goal with E : _ ++ _ = [] |- _ => apply app_eq_nil in E; destruct E end.
      subst. split; assumption.
  - rewrite orb_true_iff, IHr1, IHr2. split.
    + intros [H | H]; [apply MAltL | apply MAltR]; assumption.
    + intros H. inversion H; subst; [left | right]; assumption.
  - split; [constructor | reflexivity].
Qed.

(** A non-empty word of [Star r] starts with a non-empty word of [r]. *)
Lemma star_cons (r : regex) (c : codeunit) (s : jsstring) :
  matches (Star r) (c :: s) ->
  exists s1 s2, s = s1 ++ s2 /\ matches r (c :: s1) /\ matches (Star r) s2.
Proof.
  intros H. remember (Star r) as r' eqn:Er. remember (c :: s) as w eqn:Ew.
  revert c s Ew. induction H; intros c0 s0 Ew; try discriminate.
  injection Er as ->.
  destruct s1 as [| d s1].
  - simpl in Ew. subst. apply IHmatches2; reflexivity.
  - simpl in Ew. injection Ew as -> <-.
    exists s1, s2. repeat split; assumption.
Qed.

Lemma deriv_spec (r : regex) : forall c s,
  matches (deriv c r) s <-> matches r (c :: s).
Proof.
  induction r; intros c s; simpl.
  - split; intros H; inversion H.
  - split; intros H; inversion H.
  - destruct (p c) eqn:Ep; split; intros H.
    + inversion H; subst. constructor. assumption.
    + inversion H; subst. constructor.
    + inversion H.
    + inversion H; subst. congruence.
  - assert (Hcat : matches (Cat (deriv c r1) r2) s <->
                   exists s1 s2, s = s1 ++ s2 /\ matches r1 (c :: s1) /\ matches r2 s2).
    { split.
      - intros H. inversion H as [| | ? ? s1 s2 H1 H2 | | | |]; subst.
        exists s1, s2. rewrite <- IHr1. auto.
      - intros (s1 & s2 & -> & H1 & H2). constructor; [apply IHr1 |]; assumption. }
    assert (Hsplit : matches (Cat r1 r2) (c :: s) <->
                     (exists s1 s2, s = s1 ++ s2 /\ matches r1 (c :: s1) /\ matches r2 s2)
                     \/ (matches r1 [] /\ matches r2 (c :: s))).
    { split.
      - intros H. inversion H as [| | ? ? s1 s2 H1 H2 | | | |]; subst.
        match goal with E : _ ++ _ = _ :: _ |- _ => rename E into E0 end.
        destruct s1 as [| d s1]; simpl in E0.
        + subst. right. split; assumption.
        + injection E0 as -> <-. left. exists s1, s2. auto.
      - intros [(s1 & s2 & -> & H1 & H2) | [H1 H2]].
        + apply (MCat _ _ (c :: s1) s2); assumption.
        + apply (MCat _ _ [] (c :: s)); assumption. }
    rewrite Hsplit. destruct (nullable r1) eqn:En.
    + split.
      * intros H. inversion H; subst.
        -- left. apply Hcat. assumption.
        -- right. split; [apply nullable_spec | apply IHr2]; assumption.
      * intros [H | [_ H]].
        -- apply MAltL. apply Hcat. assumption.
        -- apply MAltR. apply IHr2. assumption.
    + rewrite Hcat. split; [auto |].
      intros [H | [H _]]; [assumption |].
      apply nullable_spec in H. congruence.
  - split; intros H; inversion H; subst.
    + apply MAltL. apply IHr1. assumption.
    + apply MAltR. apply IHr2. assumption.
    + apply MAltL. apply IHr1. assumption.
    + apply MAltR. apply IHr2. assumption.
  - split.
    + intros H. inversion H as [| | ? ? s1 s2 H1 H2 | | | |]; subst.
      apply (MStarS _ (c :: s1) s2); [apply IHr |]; assumption.
    + intros H. apply star_cons in H. destruct H as (s1 & s2 & -> & H1 & H2).
      constructor; [apply IHr |]; assumption.
Qed.

(** The matcher decides the language. *)
Lemma matchb_spec (s : jsstring) : forall r, matchb r s = true <-> matches r s.
Proof.
  induction s as [| c s IH]; intros r; simpl.
  - apply nullable_spec.
  - rewrite IH. apply deriv_spec.
Qed.

Lemma test_spec (r : regex) (s : jsstring) : test r s = true <-> matches r s.
Proof. apply matchb_spec. Qed.

Lemma test_false (r : regex) (s : jsstring) : test r s = false <-> ~ matches r s.
Proof.
  rewrite <- test_spec. destruct (test r s); split; congruence.
Qed.

(** Inversion principles for the constructors the patterns are built of. *)
Lemma matches_class (p : codeunit -> bool) (s : jsstring) :
  matches (Class p) s <-> exists c, s = [c] /\ p c = true.
Proof.
  split.
  - intros H. inversion H; subst. eauto.
  - intros (c & -> & H). constructor. assumption.
Qed.

Lemma matches_chr (c : codeunit) (s : jsstring) : matches (Chr c) s <-> s = [c].
Proof.
  unfold Chr. rewrite matches_class. split.
  - intros (d & -> & H). apply Z.eqb_eq in H. congruence.
  - intros ->. exists c. split; [reflexivity | apply Z.eqb_refl].
Qed.

Lemma matches_cat (r1 r2 : regex) (s : jsstring) :
  matches (Cat r1 r2) s <-> exists s1 s2, s = s1 ++ s2 /\ matches r1 s1 /\ matches r2 s2.
Proof.
  split.
  - intros H. inversion H; subst. eauto.
  - intros (s1 & s2 & -> & H1 & H2). constructor; assumption.
Qed.

Lemma matches_alt (r1 r2 : regex) (s : jsstring) :
  matches (Alt r1 r2) s <-> matches r1 s \/ matches r2 s.
Proof.
  split.
  - intros H. inversion H; subst; auto.
  - intros [H | H]; [apply MAltL | apply MAltR]; assumption.
Qed.

Lemma matches_opt (r : regex) (s : jsstring) :
  matches (Opt r) s <-> matches r s \/ s = [].
Proof.
  unfold Opt. rewrite matches_alt. split.
  - intros [H | H]; [left; assumption | right; inversion H; reflexivity].
  - intros [H | ->]; [left; assumption | right; constructor].
Qed.

(** [[p]*] and [[p]+] are the runs of units of the class. *)
Lemma matches_star_class (p : codeunit -> bool) (s : jsstring) :
  matches (Star (Class p)) s <-> forallb p s = true.
Proof.
  split.
  - intros H. remember (Star (Class p)) as r eqn:Er.
    induction H; try discriminate.
    + reflexivity.
    + injection Er as ->. inversion H; subst. simpl.
      rewrite IHmatches2 by reflexivity. rewrite andb_true_r. assumption.
  - induction s as [| c s IH]; simpl; intros H.
    + constructor.
    + apply andb_true_iff in H. destruct H as [Hc Hs].
      apply (MStarS _ [c] s); [constructor; assumption | apply IH; assumption].
Qed.

Lemma matches_plus_class (p : codeunit -> bool) (s : jsstring) :
  matches (Plus (Class p)) s <-> s <> [] /\ forallb p s = true.
Proof.
  unfold Plus. rewrite matches_cat. split.
  - intros (s1 & s2 & -> & H1 & H2).
    apply matches_class in H1. destruct H1 as (c & -> & Hc).
    apply matches_star_class in H2. simpl. rewrite Hc, H2.
    split; [discriminate | reflexivity].
  - intros [Hne H]. destruct s as [| c s]; [congruence |].
    simpl in H. apply andb_true_iff in H. destruct H as [Hc Hs].
    exists [c], s. repeat split.
    + constructor. assumption.
    + apply matches_star_class. assumption.
Qed.

Ltac minv :=
  repeat match goal with
  | H : matches (Plus (Class _)) _ |- _ =>
      apply matches_plus_class in H; destruct H as [? ?]
  | H : matches (Opt _) _ |- _ =>
      apply matches_opt in H; destruct H as [? | ?]
  | H : matches (Chr _) _ |- _ => apply matches_chr in H
  | H : matches (Class _) _ |- _ =>
      apply matches_class in H; destruct H as (? & ? & ?)
  | H : matches (Cat _ _) _ |- _ =>
      apply matches_cat in H; destruct H as (? & ? & ? & ? & ?)
  | H : matches (Alt _ _) _ |- _ =>
      apply matches_alt in H; destruct H as [? | ?]
  end; subst.

(** ** The time pattern *)

Section TimePattern.

Import Time.

Lemma timeRegex_shape (s : jsstring) : matches timeRegex s <-> timeShape s.
Proof.
  unfold timeRegex, timeShape. split.
  - intros H. minv;
      repeat match goal with
             | H : between _ _ _ = true |- _ => apply between_spec in H
             end.
    + match goal with
      | |- exists _ _ _, ([?a] ++ [?d]) ++ _ ++ [?c] ++ [?e] = _ /\ _ =>
          exists [a; d], c, e
      end.
      repeat split; try lia. right; left. eauto 6.
    + match goal with
      | |- exists _ _ _, ([] ++ [?d]) ++ _ ++ [?c] ++ [?e] = _ /\ _ =>
          exists [d], c, e
      end.
      repeat split; try lia. left. eauto.
    + match goal with
      | |- exists _ _ _, ([50] ++ [?d]) ++ _ ++ [?c] ++ [?e] = _ /\ _ =>
          exists [50; d], c, e
      end.
      repeat split; try lia. right; right. eauto.
  - intros (hour & c & e & -> & Hc & He & Hh).
    apply matches_cat. exists hour, [colon; c; e]. split; [reflexivity |]. split.
    + apply matches_alt.
      destruct Hh as [(d & -> & Hd) | [(a & d & -> & Ha & Hd) | (d & -> & Hd)]].
      * left. apply (MCat _ _ [] [d]).
        -- apply matches_opt. right. reflexivity.
        -- constructor. apply between_spec. lia.
      * left. apply (MCat _ _ [a] [d]).
        -- apply matches_opt. left. constructor. apply between_spec. lia.
        -- constructor. apply between_spec. lia.
      * right. apply (MCat _ _ [50] [d]).
        -- apply matches_chr. reflexivity.
        -- constructor. apply between_spec. lia.
    + apply (MCat _ _ [colon] [c; e]); [apply matches_chr; reflexivity |].
      apply (MCat _ _ [c] [e]); constructor; apply between_spec; lia.
Qed.

Lemma pad2_digits (a b : Z) :
  0 <= b <= 9 -> pad2 (10 * a + b) = [48 + a; 48 + b].
Proof.
  intros Hb. unfold pad2, digit.
  replace ((10 * a + b) / 10) with a by (apply (Z.div_unique _ 10 a b); lia).
  replace ((10 * a + b) mod 10) with b by (apply (Z.mod_unique _ 10 a b); lia).
  reflexivity.
Qed.

Lemma pad2_split (n : Z) :
  0 <= n -> exists a b, n = 10 * a + b /\ 0 <= b <= 9 /\ 0 <= a /\ pad2 n = [48 + a; 48 + b].
Proof.
  intros Hn. exists (n / 10), (n mod 10).
  pose proof (Z.div_mod n 10 ltac:(lia)) as E.
  pose proof (Z.mod_pos_bound n 10 ltac:(lia)) as B.
  assert (0 <= n / 10) by (apply Z.div_pos; lia).
  repeat split; try lia.
Qed.

Lemma timeShape_numeric (s : jsstring) : timeShape s <-> HHMM s \/ HMM s.
Proof.
  unfold timeShape, HHMM, HMM. split.
  - intros (hour & c & e & -> & Hc & He & Hh).
    assert (Em : pad2 (10 * (c - 48) + (e - 48)) = [c; e]).
    { rewrite pad2_digits by lia. f_equal; [lia | f_equal; lia]. }
    destruct Hh as [(d & -> & Hd) | [(a & d & -> & Ha & Hd) | (d & -> & Hd)]].
    + right. exists (d - 48), (10 * (c - 48) + (e - 48)).
      rewrite Em. unfold digit. repeat split; try lia.
      cbn [app]. f_equal. lia.
    + left. exists (10 * (a - 48) + (d - 48)), (10 * (c - 48) + (e - 48)).
      rewrite Em, pad2_digits by lia. repeat split; try lia.
      cbn [app]. f_equal; [lia | f_equal; lia].
    + left. exists (10 * 2 + (d - 48)), (10 * (c - 48) + (e - 48)).
      rewrite Em, pad2_digits by lia. repeat split; try lia.
      cbn [app]. f_equal. f_equal. lia.
  - intros [(h & m & Hh & Hm & ->) | (h & m & Hh & Hm & ->)].
    + destruct (pad2_split h ltac:(lia)) as (a & b & -> & Hb & Ha & ->).
      destruct (pad2_split m ltac:(lia)) as (c & e & -> & He & Hc & ->).
      exists [48 + a; 48 + b], (48 + c), (48 + e).
      repeat split; try lia.
      destruct (Z.eq_dec a 2) as [-> | Hne].
      * right; right. exists (48 + b). split; [reflexivity | lia].
      * right; left. exists (48 + a), (48 + b). split; [reflexivity | lia].
    + destruct (pad2_split m ltac:(lia)) as (c & e & -> & He & Hc & ->).
      exists [digit h], (48 + c), (48 + e). unfold digit.
      repeat split; try lia.
      left. exists (48 + h). split; [reflexivity | lia].
Qed.

Lemma HHMM_length (s : jsstring) : HHMM s -> List.length s = 5%nat.
Proof. intros (h & m & _ & _ & ->). reflexivity. Qed.

(** C8: the time validator rejects ["24:00"] and accepts ["23:59"] and
    ["00:00"]. *)
Theorem time_validator_boundaries :
  timeValidator (lit "24:00") = false /\
  timeValidator (lit "23:59") = true /\
  timeValidator (lit "00:00") = true.
Proof. repeat split; reflexivity. Qed.

(** C10: the strings the time validator accepts are exactly the language
    of [^([0-1]?[0-9]|2[0-3]):[0-5][0-9]$], that is the two-digit shape
    HH:MM together with the hours [0] to [9] on one digit; ["8:45"] is
    accepted although it is not of the two-digit shape, and ["9:0"], with
    one minute digit, is rejected. *)
Theorem time_validator_language :
  (forall s, timeValidator s = true <-> matches timeRegex s) /\
  (forall s, timeValidator s = true <-> HHMM s \/ HMM s) /\
  (timeValidator (lit "8:45") = true /\ ~ HHMM (lit "8:45")) /\
  timeValidator (lit "9:0") = false.
Proof.
  split; [| split; [| split; [split |]]].
  - intros s. apply test_spec.
  - intros s. unfold timeValidator.
    rewrite test_spec, timeRegex_shape. apply timeShape_numeric.
  - reflexivity.
  - intros H. apply HHMM_length in H. discriminate.
  - reflexivity.
Qed.

End TimePattern.

(** ** Slug derivation *)

Section SlugDerivation.

Import Slug.

Lemma dropStart_incl (p : codeunit -> bool) (s : jsstring) (c : codeunit) :
  In c (dropStart p s) -> In c s.
Proof.
  induction s as [| d s IH]; simpl; [auto |].
  destruct (p d); [right; apply IH; assumption | auto].
Qed.

Lemma dropStart_keeps (p : codeunit -> bool) (s : jsstring) (c : codeunit) :
  In c s -> p c = false -> In c (dropStart p s).
Proof.
  intros Hin Hp. induction s as [| d s IH]; simpl in *; [assumption |].
  destruct (p d) eqn:Hd; [| assumption].
  destruct Hin as [-> | Hin]; [congruence | apply IH; assumption].
Qed.

Lemma dropEnd_incl (p : codeunit -> bool) (s : jsstring) (c : codeunit) :
  In c (dropEnd p s) -> In c s.
Proof.
  unfold dropEnd. rewrite <- in_rev. intros H.
  apply dropStart_incl in H. apply in_rev. assumption.
Qed.

Lemma dropEnd_keeps (p : codeunit -> bool) (s : jsstring) (c : codeunit) :
  In c s -> p c = false -> In c (dropEnd p s).
Proof.
  intros Hin Hp. unfold dropEnd. rewrite <- in_rev.
  apply dropStart_keeps; [rewrite <- in_rev |]; assumption.
Qed.

Lemma trim_incl (s : jsstring) (c : codeunit) : In c (trim s) -> In c s.
Proof.
  unfold trim, trimEnd, trimStart. intros H.
  apply dropEnd_incl, dropStart_incl in H. assumption.
Qed.

Lemma trim_keeps (s : jsstring) (c : codeunit) :
  In c s -> isWhiteSpace c = false -> In c (trim s).
Proof.
  intros Hin Hw. unfold trim, trimEnd, trimStart.
  apply dropEnd_keeps; [apply dropStart_keeps |]; assumption.
Qed.

Lemma replaceRuns_keeps (p : codeunit -> bool) (rep : jsstring) (c : codeunit) :
  p c = false -> forall s b, In c s -> In c (replaceRuns p rep b s).
Proof.
  intros Hp. induction s as [| d s IH]; intros b Hin; simpl in *; [assumption |].
  destruct (p d) eqn:Hd.
  - apply in_or_app. right.
    destruct Hin as [-> | Hin]; [congruence | apply IH; assumption].
  - destruct Hin as [-> | Hin]; [left; reflexivity | right; apply IH; assumption].
Qed.

Lemma replaceRuns_from (p : codeunit -> bool) (rep : jsstring) (c : codeunit) :
  forall s b, In c (replaceRuns p rep b s) -> In c rep \/ (In c s /\ p c = false).
Proof.
  induction s as [| d s IH]; intros b Hin; simpl in *; [contradiction |].
  destruct (p d) eqn:Hd.
  - apply in_app_or in Hin. destruct Hin as [Hin | Hin].
    + destruct b; [contradiction | left; assumption].
    + apply IH in Hin. destruct Hin as [? | [? ?]]; auto.
  - destruct Hin as [<- | Hin]; [right; auto |].
    apply IH in Hin. destruct Hin as [? | [? ?]]; auto.
Qed.

(** A global replace of [[p]+]: a run of units of the class that no unit
    of the class precedes or follows is replaced by one [rep]. *)
Lemma replaceRuns_in_run (p : codeunit -> bool) (rep : jsstring) :
  forall run b, forallb p run = true ->
    replaceRuns p rep true (run ++ b) = replaceRuns p rep true b.
Proof.
  induction run as [| c run IH]; intros b H; simpl in *; [reflexivity |].
  apply andb_true_iff in H. destruct H as [Hc Hr].
  rewrite Hc. simpl. apply IH. assumption.
Qed.

Lemma replaceRuns_run (p : codeunit -> bool) (rep : jsstring) :
  forall a c run d b,
    p c = false -> forallb p run = true -> run <> [] -> p d = false ->
    replaceRuns p rep false (a ++ c :: run ++ d :: b)
    = replaceRuns p rep false (a ++ [c]) ++ rep ++ replaceRuns p rep false (d :: b).
Proof.
  intros a c run d b Hc Hr Hne Hd.
  assert (Hrun : replaceRuns p rep false (run ++ d :: b)
                 = rep ++ replaceRuns p rep false (d :: b)).
  { destruct run as [| x run]; [congruence |]. simpl in *.
    apply andb_true_iff in Hr. destruct Hr as [Hx Hr]. rewrite Hx, Hd.
    rewrite replaceRuns_in_run by assumption. simpl. rewrite Hd. reflexivity. }
  generalize false at 1 2. induction a as [| x a IH]; intros flag; simpl.
  - rewrite Hc. simpl. rewrite Hrun. reflexivity.
  - destruct (p x); rewrite IH; [rewrite app_assoc |]; reflexivity.
Qed.

(** What [dropStart] leaves does not start with a unit of the class, and
    what [dropEnd] leaves does not end with one. *)
Lemma dropStart_head (p : codeunit -> bool) (s : jsstring) :
  match dropStart p s with
  | c :: _ => p c = false
  | [] => True
  end.
Proof.
  induction s as [| c s IH]; simpl; [exact I |].
  destruct (p c) eqn:Hc; [assumption | simpl; assumption].
Qed.

Lemma dropEnd_last (p : codeunit -> bool) (s s' : jsstring) (c : codeunit) :
  dropEnd p s = s' ++ [c] -> p c = false.
Proof.
  unfold dropEnd. intros H.
  pose proof (dropStart_head p (rev s)) as Hh.
  apply (f_equal (@rev codeunit)) in H. rewrite rev_involutive, rev_app_distr in H.
  simpl in H. rewrite H in Hh. assumption.
Qed.

Ltac unit_cases :=
  unfold keptUnit, isUnicodeWordChar, isWordChar, isDigit, isWhiteSpace,
    isHyphen, lowerUnit, hyphen, latin1 in *;
  repeat match goal with
         | H : context [between _ _ _ = true] |- _ => rewrite between_spec in H
         | H : context [between _ _ _ = false] |- _ => rewrite between_false in H
         | H : context [(_ || _)%bool = true] |- _ => rewrite orb_true_iff in H
         | H : context [(_ || _)%bool = false] |- _ => rewrite orb_false_iff in H
         | H : context [(_ =? _) = true] |- _ => rewrite Z.eqb_eq in H
         | H : context [(_ =? _) = false] |- _ => rewrite Z.eqb_neq in H
         end.

(** The lower case of an ASCII word character is an ASCII word character
    that is not an upper-case letter. *)
Lemma lowerUnit_word (c : codeunit) :
  isWordChar c = true ->
  (between 97 122 (lowerUnit c) || isDigit (lowerUnit c) || (lowerUnit c =? 95) = true)%bool.
Proof.
  intros H. unfold lowerUnit.
  destruct (between 65 90 c || between 192 214 c || between 216 222 c)%bool eqn:E;
    unit_cases; unfold isDigit;
    rewrite !orb_true_iff, !between_spec, Z.eqb_eq; lia.
Qed.

(** No code unit has an upper-case ASCII letter as its lower case. *)
Lemma lowerUnit_not_upper (c : codeunit) : between 65 90 (lowerUnit c) = false.
Proof.
  unfold lowerUnit.
  destruct (between 65 90 c || between 192 214 c || between 216 222 c)%bool eqn:E;
    unit_cases; apply between_false; lia.
Qed.

Lemma word_not_space (c : codeunit) :
  (between 97 122 c || isDigit c || (c =? 95) = true)%bool ->
  isWordChar c = true /\ isWhiteSpace c = false /\ isHyphen c = false.
Proof.
  intros H. unit_cases. unfold isWordChar, isWhiteSpace, isHyphen, isDigit, hyphen.
  rewrite !orb_true_iff, !orb_false_iff, !between_spec, !between_false,
    !Z.eqb_eq, !Z.eqb_neq. lia.
Qed.

Lemma Forall_dropStart (P : codeunit -> Prop) (p : codeunit -> bool) (s : jsstring) :
  Forall P s -> Forall P (dropStart p s).
Proof.
  intros H. apply Forall_forall. intros c Hc.
  apply dropStart_incl in Hc. revert c Hc. apply Forall_forall. assumption.
Qed.

Lemma filter_none (p : codeunit -> bool) (s : jsstring) :
  Forall (fun c => p c = false) s -> filter p s = [].
Proof.
  induction 1 as [| c s Hc _ IH]; simpl; [reflexivity |].
  rewrite Hc. assumption.
Qed.

(** A unit that step 3 removes is removed after lower-casing as well. *)
Lemma lowerUnit_removed (c : codeunit) :
  keptUnit c = false -> keptUnit (lowerUnit c) = false.
Proof.
  intros H. unfold lowerUnit.
  destruct (between 65 90 c || between 192 214 c || between 216 222 c)%bool eqn:E;
    [| assumption].
  unit_cases. unfold keptUnit, isWordChar, isWhiteSpace, isHyphen, isDigit, hyphen.
  rewrite !orb_false_iff, !between_false, !Z.eqb_neq. lia.
Qed.

Lemma slugify_removed (title : jsstring) :
  Forall (fun c => keptUnit c = false) title -> slugify title = [].
Proof.
  intros H. unfold slugify.
  assert (Hl : Forall (fun c => keptUnit c = false) (trim (toLowerCase title))).
  { apply Forall_forall. intros c Hc. apply trim_incl in Hc.
    unfold toLowerCase in Hc. apply in_map_iff in Hc. destruct Hc as (d & <- & Hd).
    apply lowerUnit_removed. revert d Hd. apply Forall_forall. assumption. }
  unfold removeSpecials. rewrite (filter_none _ _ Hl). reflexivity.
Qed.

Lemma removeSpecials_In (s : jsstring) (c : codeunit) :
  In c (removeSpecials s) <->
  In c s /\ (isWordChar c = true \/ isWhiteSpace c = true \/ c = hyphen).
Proof.
  unfold removeSpecials. rewrite filter_In. unfold keptUnit, isHyphen.
  rewrite !orb_true_iff, Z.eqb_eq. tauto.
Qed.

(** An ASCII word character of the title is in the slug, in lower case. *)
Lemma slugify_keeps_word (title : jsstring) (c : codeunit) :
  In c title -> isWordChar c = true -> In (lowerUnit c) (slugify title).
Proof.
  intros Hin Hw.
  destruct (word_not_space _ (lowerUnit_word c Hw)) as (Hw' & Hs & Hh).
  unfold slugify, stripHyphens, collapseHyphens, collapseWhitespace.
  apply dropEnd_keeps; [| assumption].
  apply dropStart_keeps; [| assumption].
  apply replaceRuns_keeps; [assumption |].
  apply replaceRuns_keeps; [assumption |].
  apply removeSpecials_In. split; [| left; assumption].
  apply trim_keeps; [| assumption].
  unfold toLowerCase. apply in_map. assumption.
Qed.

(** Every unit of a slug is one of [a-z], [0-9], [_] and [-]. *)
Lemma slugify_alphabet (title : jsstring) (c : codeunit) :
  In c (slugify title) ->
  (between 97 122 c || isDigit c || (c =? 95) || isHyphen c = true)%bool.
Proof.
  unfold slugify, stripHyphens, collapseHyphens, collapseWhitespace. intros H.
  apply dropEnd_incl, dropStart_incl in H.
  apply replaceRuns_from in H.
  destruct H as [[<- | []] | [H _]]; [reflexivity |].
  apply replaceRuns_from in H.
  destruct H as [[<- | []] | [H Hs]]; [reflexivity |].
  apply removeSpecials_In in H. destruct H as [H Hk].
  apply trim_incl in H. unfold toLowerCase in H.
  apply in_map_iff in H. destruct H as (d & <- & _).
  pose proof (lowerUnit_not_upper d) as Hu.
  destruct Hk as [Hk | [Hk | Hk]].
  - unfold isWordChar in Hk. rewrite Hu, orb_false_r in Hk.
    rewrite Hk. reflexivity.
  - congruence.
  - rewrite Hk. reflexivity.
Qed.


End SlugDerivation.

(** ** The Booking model *)

Section BookingModel.

Import Booking.

Lemma emailRegex_shape (v : jsstring) : matches emailRegex v <-> emailShape v.
Proof.
  unfold emailRegex, emailShape. split.
  - intros H. minv.
    match goal with
    | |- exists _ _ _, ?l ++ [at_sign] ++ ?d ++ [dot] ++ ?t = _ /\ _ =>
        exists l, d, t
    end.
    repeat split; assumption.
  - intros (l & d & t & -> & Hl & Hd & Ht & Fl & Fd & Ft).
    apply matches_cat. exists l, (at_sign :: d ++ dot :: t).
    split; [reflexivity |].
    split; [apply matches_plus_class; split; assumption |].
    apply (MCat _ _ [at_sign]); [apply matches_chr; reflexivity |].
    apply matches_cat. exists d, (dot :: t).
    split; [reflexivity |].
    split; [apply matches_plus_class; split; assumption |].
    apply (MCat _ _ [dot]); [apply matches_chr; reflexivity |].
    apply matches_plus_class; split; assumption.
Qed.

Lemma emailValidator_shape (v : jsstring) : emailValidator v = true <-> emailShape v.
Proof. unfold emailValidator. rewrite test_spec. apply emailRegex_shape. Qed.

Lemma emailUnit_count (s : jsstring) :
  forallb emailUnit s = true -> count_occ Z.eq_dec s at_sign = 0%nat.
Proof.
  induction s as [| c s IH]; simpl; [reflexivity |].
  intros H. apply andb_true_iff in H. destruct H as [Hc Hs].
  unfold emailUnit in Hc. apply andb_true_iff in Hc. destruct Hc as [_ Hc].
  apply negb_true_iff, Z.eqb_neq in Hc.
  destruct (Z.eq_dec c at_sign); [contradiction | apply IH; assumption].
Qed.

Lemma emailUnit_no_space (s : jsstring) :
  forallb emailUnit s = true -> existsb isWhiteSpace s = false.
Proof.
  induction s as [| c s IH]; simpl; [reflexivity |].
  intros H. apply andb_true_iff in H. destruct H as [Hc Hs].
  unfold emailUnit in Hc. apply andb_true_iff in Hc. destruct Hc as [Hc _].
  apply negb_true_iff in Hc. rewrite Hc, IH by assumption. reflexivity.
Qed.

(** What the shape implies: exactly one [@], no whitespace, and a dot in
    the part after the [@]. *)
Lemma emailShape_necessary (v : jsstring) :
  emailShape v ->
  count_occ Z.eq_dec v at_sign = 1%nat /\
  existsb isWhiteSpace v = false /\
  exists loc rest, v = loc ++ at_sign :: rest /\ In dot rest.
Proof.
  intros (l & d & t & -> & _ & _ & _ & Fl & Fd & Ft).
  split; [| split].
  - rewrite count_occ_app. simpl.
    destruct (Z.eq_dec at_sign at_sign); [| congruence].
    rewrite count_occ_app. simpl.
    destruct (Z.eq_dec dot at_sign); [discriminate |].
    rewrite !emailUnit_count by assumption. reflexivity.
  - rewrite existsb_app. simpl. rewrite existsb_app. simpl.
    rewrite !emailUnit_no_space by assumption. reflexivity.
  - exists l, (d ++ dot :: t). split; [reflexivity |].
    apply in_or_app. right. left. reflexivity.
Qed.

(** The two setters commute: lower-casing neither makes nor removes
    whitespace. *)
Lemma isWhiteSpace_lowerUnit (c : codeunit) :
  isWhiteSpace (lowerUnit c) = isWhiteSpace c.
Proof.
  unfold lowerUnit.
  destruct (between 65 90 c || between 192 214 c || between 216 222 c)%bool eqn:E;
    [| reflexivity].
  assert (Hc : 65 <= c <= 222).
  { rewrite !orb_true_iff, !between_spec in E. lia. }
  assert (isWhiteSpace c = false /\ isWhiteSpace (c + 32) = false) as [-> ->];
    [| reflexivity].
  unfold isWhiteSpace.
  rewrite !orb_false_iff, !between_false, !Z.eqb_neq.
  rewrite !orb_true_iff, !between_spec in E. lia.
Qed.

Lemma dropStart_toLowerCase (s : jsstring) :
  dropStart isWhiteSpace (toLowerCase s) = toLowerCase (dropStart isWhiteSpace s).
Proof.
  induction s as [| c s IH]; simpl; [reflexivity |].
  rewrite isWhiteSpace_lowerUnit. destruct (isWhiteSpace c); [assumption | reflexivity].
Qed.

Lemma trim_toLowerCase (s : jsstring) : trim (toLowerCase s) = toLowerCase (trim s).
Proof.
  unfold trim, trimEnd, trimStart, dropEnd.
  rewrite dropStart_toLowerCase. unfold toLowerCase at 1.
  rewrite <- map_rev. fold (toLowerCase (rev (dropStart isWhiteSpace s))).
  rewrite dropStart_toLowerCase. unfold toLowerCase. rewrite map_rev. reflexivity.
Qed.

(** Validation fails with at least one error. *)
Lemma validate_reports (c : BookingInput) (errs : list ValidationError) :
  validate c = inr errs -> errs <> [].
Proof.
  unfold validate, validateEventId, validateEmail.
  destruct (inEventId c), (inEmail c) as [raw |]; simpl;
    try (intros E; injection E as <-; discriminate).
  destruct (setEmail raw) as [| x v];
    [intros E; injection E as <-; discriminate |].
  destruct (emailValidator (x :: v)); intros E;
    [discriminate | injection E as <-; discriminate].
Qed.

(** The errors validation reports for the [email] path. *)
Lemma validate_email_errors (c : BookingInput) (e : ValidationError) :
  (forall name, e <> MissingField name) ->
  failsWith e (validate c) <->
  exists raw, inEmail c = Some raw /\ setEmail raw <> [] /\
              emailValidator (setEmail raw) = false /\ e = InvalidFormat "email".
Proof.
  intros Hne. unfold validate, validateEventId, validateEmail.
  destruct (inEventId c), (inEmail c) as [raw |]; simpl.
  - destruct (setEmail raw) as [| x v] eqn:Ev; simpl.
    + split.
      * intros [<- | []]. exfalso. apply (Hne "email"%string). reflexivity.
      * intros (r & E & Hn & _). injection E as <-. congruence.
    + destruct (emailValidator (x :: v)) eqn:Em; simpl.
      * split; [contradiction |].
        intros (r & E & _ & Hf & _). injection E as <-. congruence.
      * split.
        -- intros [<- | []]. exists raw. rewrite Ev, Em.
           repeat split; [discriminate].
        -- intros (r & _ & _ & _ & ->). left. reflexivity.
  - split.
    + intros [<- | []]. exfalso. apply (Hne "email"%string). reflexivity.
    + intros (r & E & _). discriminate.
  - destruct (setEmail raw) as [| x v] eqn:Ev; simpl.
    + split.
      * intros [<- | [<- | []]]; exfalso; eapply Hne; reflexivity.
      * intros (r & E & Hn & _). injection E as <-. congruence.
    + destruct (emailValidator (x :: v)) eqn:Em; simpl.
      * split.
        -- intros [<- | []]. exfalso. eapply Hne. reflexivity.
        -- intros (r & E & _ & Hf & _). injection E as <-. congruence.
      * split.
        -- intros [<- | [<- | []]]; [exfalso; eapply Hne; reflexivity |].
           exists raw. rewrite Ev, Em. repeat split; [discriminate].
        -- intros (r & _ & _ & _ & ->). right; left. reflexivity.
  - split.
    + intros [<- | [<- | []]]; exfalso; eapply Hne; reflexivity.
    + intros (r & E & _). discriminate.
Qed.

(** The hook fails with [DanglingReference "eventId"] only; every other
    error of [prepare] is an error of validation. *)
Lemma prepare_validation_errors (events : Events) (c : BookingInput)
                                (e : ValidationError) :
  e <> DanglingReference "eventId" ->
  failsWith e (fst (prepare events c)) <-> failsWith e (validate c).
Proof.
  intros Hne. unfold prepare. destruct (validate c) as [doc | errs]; simpl.
  - unfold preSave. destruct (eventIdModified doc); simpl; [| tauto].
    destruct (findById (eventId doc) events); simpl; [tauto |].
    split; [intros [<- | []]; congruence | contradiction].
  - tauto.
Qed.

Lemma prepare_invalid_format (events : Events) (c : BookingInput) (raw : jsstring) :
  inEmail c = Some raw ->
  failsWith (InvalidFormat "email") (fst (prepare events c)) <->
  setEmail raw <> [] /\ ~ emailShape (setEmail raw).
Proof.
  intros Hraw.
  rewrite prepare_validation_errors by discriminate.
  rewrite validate_email_errors by discriminate.
  rewrite <- emailValidator_shape. split.
  - intros (r & E & Hn & Hf & _). rewrite Hraw in E. injection E as <-.
    split; [assumption | congruence].
  - intros [Hn Hf]. exists raw. repeat split; try assumption.
    destruct (emailValidator (setEmail raw)); [contradiction Hf |]; reflexivity.
Qed.

(** C3, counterexample: the empty email does not match the pattern, and
    [prepare] fails with [MissingField "email"], not with
    [InvalidFormat "email"]: the [required] validator of the path comes
    first. *)
Lemma empty_email_is_missing_field :
  ~ emailShape (setEmail (lit "")) /\
  emailValidator (setEmail (lit "")) = false /\
  prepare [testEvent 1] (candidate 1 "") = (inr [MissingField "email"], []) /\
  ~ failsWith (InvalidFormat "email") (fst (prepare [testEvent 1] (candidate 1 ""))).
Proof.
  split; [| split; [reflexivity | split; [reflexivity |]]].
  - rewrite <- emailValidator_shape. discriminate.
  - simpl. intros [H | []]. discriminate.
Qed.

(** C3, as amended: [prepare] trims and lower-cases the email (in either
    order), then fails with [InvalidFormat "email"] if and only if the
    normalized email is not empty and does not have the shape of the
    pattern; an empty normalized email fails with [MissingField "email"].
    A string of the shape has exactly one [@], no whitespace and a dot
    after the [@]. Every candidate with the email ["user@@example.com"]
    fails with [InvalidFormat "email"]. *)
Theorem email_format_check :
  (forall raw, setEmail raw = toLowerCase (trim raw) /\
               setEmail raw = trim (toLowerCase raw)) /\
  (forall v, emailValidator v = true <-> emailShape v) /\
  (forall v, emailValidator v = true ->
             count_occ Z.eq_dec v at_sign = 1%nat /\
             existsb isWhiteSpace v = false /\
             exists loc rest, v = loc ++ at_sign :: rest /\ In dot rest) /\
  (forall events c raw,
      inEmail c = Some raw ->
      (failsWith (InvalidFormat "email") (fst (prepare events c)) <->
       setEmail raw <> [] /\ ~ emailShape (setEmail raw))) /\
  (forall events c raw,
      inEmail c = Some raw -> setEmail raw = [] ->
      failsWith (MissingField "email") (fst (prepare events c))) /\
  (forall events c,
      inEmail c = Some (lit "user@@example.com") ->
      failsWith (InvalidFormat "email") (fst (prepare events c))).
Proof.
  split; [| split; [| split; [| split; [| split]]]].
  - intros raw. split; [reflexivity | symmetry; apply trim_toLowerCase].
  - apply emailValidator_shape.
  - intros v Hv. apply emailShape_necessary, emailValidator_shape. assumption.
  - apply prepare_invalid_format.
  - intros events c raw Hraw He.
    rewrite prepare_validation_errors by discriminate.
    unfold validate, validateEventId, validateEmail. rewrite Hraw. simpl.
    rewrite He. destruct (inEventId c); simpl; auto.
  - intros events c Hraw.
    apply (prepare_invalid_format events c _ Hraw). split.
    + discriminate.
    + rewrite <- emailValidator_shape. discriminate.
Qed.

Lemma email_format_check_witness :
  failsWith (InvalidFormat "email")
    (fst (prepare [] (candidate 1 "user@@example.com"))).
Proof.
  apply (proj2 (proj2 (proj2 (proj2 (proj2 email_format_check))))).
  reflexivity.
Defined.

(** C4, counterexample: a first creation whose event does not exist and
    whose email is malformed. Validation fails, so the hook does not
    run: no lookup is made and the failure is not
    [DanglingReference "eventId"]. *)
Lemma invalid_candidate_skips_lookup :
  inEventIdModified (candidate 7 "user@@example.com") = true /\
  findById 7 [] = None /\
  prepare [] (candidate 7 "user@@example.com") = (inr [InvalidFormat "email"], []) /\
  ~ failsWith (DanglingReference "eventId")
      (fst (prepare [] (candidate 7 "user@@example.com"))).
Proof.
  repeat split. simpl. intros [H | []]. discriminate.
Qed.

(** C4, as amended: for a candidate that passes schema validation and
    whose [eventId] is newly set or changed, [prepare] looks the Event up
    by [eventId], once, and fails with [DanglingReference "eventId"] if
    and only if there is no such Event; on first creation with an
    [eventId] the path counts as modified. When [eventId] is unchanged,
    or when validation fails, no lookup is made. *)
Theorem referential_check :
  (forall events c doc,
      validate c = inl doc -> inEventIdModified c = true ->
      snd (prepare events c) = [FindById (eventId doc)] /\
      inEventId c = Some (eventId doc) /\
      (failsWith (DanglingReference "eventId") (fst (prepare events c)) <->
       findById (eventId doc) events = None) /\
      (findById (eventId doc) events <> None -> fst (prepare events c) = inl doc)) /\
  (forall id email, inEventIdModified (newBooking (Some id) email) = true) /\
  (forall events c,
      inEventIdModified c = false ->
      snd (prepare events c) = [] /\
      ~ failsWith (DanglingReference "eventId") (fst (prepare events c))) /\
  (forall events c errs,
      validate c = inr errs -> prepare events c = (inr errs, [])).
Proof.
  split; [| split; [| split]].
  - intros events c doc Hv Hm.
    assert (Hd : eventIdModified doc = true /\ inEventId c = Some (eventId doc)).
    { unfold validate in Hv.
      destruct (validateEventId (inEventId c) ++ validateEmail (option_map setEmail (inEmail c)));
        [| discriminate].
      destruct (inEventId c); [| destruct (option_map setEmail (inEmail c)); discriminate].
      destruct (option_map setEmail (inEmail c)); [| discriminate].
      injection Hv as <-. simpl. auto. }
    destruct Hd as [Hd Hid].
    unfold prepare. rewrite Hv. unfold preSave. rewrite Hd.
    destruct (findById (eventId doc) events) eqn:Hf; simpl.
    + repeat split; auto; try contradiction; discriminate.
    + repeat split; auto; congruence.
  - reflexivity.
  - intros events c Hm. unfold prepare.
    destruct (validate c) as [doc | errs] eqn:Hv; simpl.
    + assert (Hd : eventIdModified doc = false).
      { unfold validate in Hv.
        destruct (validateEventId (inEventId c) ++ validateEmail (option_map setEmail (inEmail c)));
          [| discriminate].
        destruct (inEventId c); [| destruct (option_map setEmail (inEmail c)); discriminate].
        destruct (option_map setEmail (inEmail c)); [| discriminate].
        injection Hv as <-. simpl. assumption. }
      unfold preSave. rewrite Hd. simpl. auto.
    + split; [reflexivity |].
      intros Hin.
      assert (Hx : failsWith (DanglingReference "eventId") (validate c))
        by (rewrite Hv; exact Hin).
      apply validate_email_errors in Hx; [| discriminate].
      destruct Hx as (_ & _ & _ & _ & Hx). discriminate.
  - intros events c errs Hv. unfold prepare. rewrite Hv. reflexivity.
Qed.

Lemma referential_check_witness :
  snd (prepare [testEvent 1] (candidate 7 "a@b.c")) = [FindById 7] /\
  failsWith (DanglingReference "eventId")
    (fst (prepare [testEvent 1] (candidate 7 "a@b.c"))) /\
  snd (prepare [] {| inEventId := Some 7; inEmail := Some (lit "a@b.c");
                     inEventIdModified := false |}) = [] /\
  prepare [] (candidate 7 "user@@example.com") = (inr [InvalidFormat "email"], []).
Proof.
  pose (doc := {| eventId := 7; email := lit "a@b.c"; eventIdModified := true |}).
  destruct (proj1 referential_check [testEvent 1] (candidate 7 "a@b.c") doc
              eq_refl eq_refl) as (Ht & _ & Hf & _).
  split; [exact Ht |].
  split; [apply Hf; reflexivity |].
  split.
  - apply (proj1 (proj2 (proj2 referential_check))). reflexivity.
  - apply (proj2 (proj2 (proj2 referential_check))). reflexivity.
Defined.

End BookingModel.

(** ** The Event validator *)

Section EventValidator.

Import EventModel.

Lemma requiredString_errors (name : string) (f : jsstring -> jsstring)
                            (v : option jsstring) (e : ValidationError) :
  In e (errorsOf (requiredString name f v)) -> e = MissingField name.
Proof.
  unfold requiredString. destruct (option_map f v) as [[| x s] |]; simpl;
    intros H; try contradiction; destruct H as [<- | []]; reflexivity.
Qed.

Lemma checkTime_errors (v : option jsstring) (e : ValidationError) :
  In e (errorsOf (checkTime v)) -> e = MissingField "time" \/ e = InvalidFormat "time".
Proof.
  unfold checkTime, requiredString. destruct (option_map _ v) as [[| x s] |]; simpl.
  - intros [<- | []]. auto.
  - match goal with |- context [if ?b then _ else _] => destruct b end;
      simpl; [contradiction |].
    intros [<- | []]. auto.
  - intros [<- | []]. auto.
Qed.

Lemma checkMode_errors (v : option jsstring) (e : ValidationError) :
  In e (errorsOf (checkMode v)) ->
  e = MissingField "mode" \/ e = InvalidEnum "mode" allowedModes.
Proof.
  unfold checkMode, requiredString. destruct (option_map _ v) as [[| x s] |]; simpl.
  - intros [<- | []]. auto.
  - match goal with |- context [if ?b then _ else _] => destruct b end;
      simpl; [contradiction |].
    intros [<- | []]. auto.
  - intros [<- | []]. auto.
Qed.

Lemma checkCollection_errors (field : string) (v : jsvalue) (e : ValidationError) :
  In e (errorsOf (checkCollection field v)) <->
  e = EmptyCollection field /\ emptyOrNotSequence v.
Proof.
  unfold emptyOrNotSequence.
  destruct v as [| | b | n | s | [| x items]]; simpl;
    try (split; [intros [<- | []]; auto | intros [-> _]; auto]).
  split; [contradiction |].
  intros [_ [H | [H | H]]]; discriminate.
Qed.

(** The violations of a candidate that name a collection. *)
Lemma violations_collection (c : EventInput) (field : string) :
  In (EmptyCollection field) (violations c) <->
  (field = "agenda"%string /\ emptyOrNotSequence (inAgenda c))
  \/ (field = "tags"%string /\ emptyOrNotSequence (inTags c)).
Proof.
  unfold violations. rewrite !in_app_iff. rewrite !checkCollection_errors. split.
  - intros H.
    repeat match goal with
           | H : _ \/ _ |- _ => destruct H as [H | H]
           | H : In _ (errorsOf (requiredString _ _ _)) |- _ =>
               apply requiredString_errors in H; discriminate
           | H : In _ (errorsOf (checkTime _)) |- _ =>
               apply checkTime_errors in H; destruct H; discriminate
           | H : In _ (errorsOf (checkMode _)) |- _ =>
               apply checkMode_errors in H; destruct H; discriminate
           end.
    + destruct H as [E Hv]. injection E as ->. left. auto.
    + destruct H as [E Hv]. injection E as ->. right. auto.
  - intros [[-> Hv] | [-> Hv]]; tauto.
Qed.

Lemma prepare_fails (events : Events) (now : nat -> Z) (c : EventInput)
                    (e : ValidationError) :
  failsWith e (prepare events now c) <-> In e (violations c).
Proof.
  unfold prepare. destruct (violations c); simpl; tauto.
Qed.

(** C6: for [agenda] and for [tags], [prepare] fails with
    [EmptyCollection] of the field if and only if the value of the field
    is an empty sequence, [null] or not a sequence; a sequence of one
    string or more passes the collection check. *)
Theorem collection_check :
  (forall events now c,
      (failsWith (EmptyCollection "agenda") (prepare events now c) <->
       emptyOrNotSequence (inAgenda c)) /\
      (failsWith (EmptyCollection "tags") (prepare events now c) <->
       emptyOrNotSequence (inTags c))) /\
  (forall field x items,
      checkCollection field (VArray (x :: items)) = inl (x :: items)) /\
  (forall field,
      checkCollection field (VArray []) = inr [EmptyCollection field] /\
      checkCollection field VNull = inr [EmptyCollection field] /\
      checkCollection field VUndefined = inr [EmptyCollection field] /\
      checkCollection field (VString (lit "not an array")) = inr [EmptyCollection field]).
Proof.
  split; [| split].
  - intros events now c. rewrite !prepare_fails, !violations_collection.
    split; split; try tauto.
    + intros [[_ H] | [E _]]; [assumption | discriminate].
    + intros [[E _] | [_ H]]; [discriminate | assumption].
  - reflexivity.
  - intros field. repeat split.
Qed.

















End EventValidator.

(** ** The connection module *)

Section ConnectionCache.

Import Mongodb.

(** C9: loading the module throws the message about [MONGODB_URI] if and
    only if the variable is undefined or the empty string; then nothing
    is exported, so [connectDB] cannot be called, and no connection is
    attempted. When the module loads it has made no promise either. *)
Theorem missing_uri_throws :
  forall env g heap,
    (loadModule env g heap = Throws missingUri <-> env = None \/ env = Some []) /\
    ((env = None \/ env = Some []) -> forall s, loadModule env g heap <> Exports s) /\
    (forall s, loadModule env g heap = Exports s ->
               env = Some (MONGODB_URI s) /\ MONGODB_URI s <> [] /\
               promises s = heap /\ results s = []) /\
    (forall message, loadModule env g heap = Throws message -> message = missingUri).
Proof.
  intros env g heap. unfold loadModule.
  destruct env as [[| c u] |]; repeat split; auto;
    try discriminate; try congruence.
  - intros [H | H]; discriminate.
  - intros [H | H]; discriminate.
  - injection H as <-. reflexivity.
  - injection H as <-. discriminate.
  - injection H as <-. reflexivity.
  - injection H as <-. reflexivity.
Qed.

Lemma missing_uri_throws_witness :
  loadModule (Some (lit "")) None [] = Throws missingUri /\
  loadModule None None [] = Throws missingUri /\
  (forall s, loadModule (Some (lit "")) None [] <> Exports s).
Proof.
  split; [| split].
  - apply (proj1 (missing_uri_throws (Some (lit "")) None [])). right. reflexivity.
  - apply (proj1 (missing_uri_throws None None [])). left. reflexivity.
  - apply (proj1 (proj2 (missing_uri_throws (Some (lit "")) None []))).
    right. reflexivity.
Defined.

(** A call with a cached connection returns it at once and starts no
    attempt. *)
Lemma connectDB_cached_conn (s : state) (h : handle) :
  conn (cached s) = Some h ->
  connectDB s =
  {| MONGODB_URI := MONGODB_URI s; cached := cached s; promises := promises s;
     waiting := waiting s; jobs := jobs s;
     results := results s ++ [(calls s, Fulfilled h)]; calls := S (calls s) |}.
Proof. intros H. unfold connectDB. simpl. rewrite H. reflexivity. Qed.

(** A call with a cached promise and no connection awaits that promise
    and starts no attempt. *)
Lemma connectDB_cached_promise (s : state) (p : nat) :
  conn (cached s) = None -> promise (cached s) = Some p ->
  attempts (connectDB s) = attempts s /\
  cached (connectDB s) = cached s /\
  (nth_error (promises s) p = Some Pending ->
   waiting (connectDB s) = waiting s ++ [(calls s, p)]) /\
  (nth_error (promises s) p <> Some Pending ->
   jobs (connectDB s) = jobs s ++ [(calls s, p)]).
Proof.
  intros Hc Hp. unfold connectDB, attempts, await. simpl. rewrite Hc, Hp. simpl.
  destruct (nth_error (promises s) p) as [[| o] |]; simpl; repeat split;
    intros; congruence.
Qed.

(** A call with neither starts one attempt, caches its promise and
    awaits it. *)
Lemma connectDB_new_attempt (s : state) :
  conn (cached s) = None -> promise (cached s) = None ->
  promises (connectDB s) = promises s ++ [Pending] /\
  promise (cached (connectDB s)) = Some (attempts s) /\
  waiting (connectDB s) = waiting s ++ [(calls s, attempts s)].
Proof.
  intros Hc Hp. unfold connectDB, attempts, await. simpl. rewrite Hc, Hp. simpl.
  rewrite nth_error_app2 by lia. rewrite Nat.sub_diag. simpl. auto.
Qed.

(** A call that resumes on a rejected promise clears the cached promise,
    whichever promise is cached by then, and throws. *)
Lemma resume_rejected (s : state) (call p : nat) (reason : string) :
  nth_error (promises s) p = Some (Settled (Rejected reason)) ->
  promise (cached (resume call p s)) = None /\
  conn (cached (resume call p s)) = conn (cached s) /\
  results (resume call p s) = results s ++ [(call, Rejected reason)].
Proof. intros H. unfold resume. rewrite H. simpl. auto. Qed.

(** A call that resumes on a fulfilled promise caches the connection and
    returns it. *)
Lemma resume_fulfilled (s : state) (call p : nat) (h : handle) :
  nth_error (promises s) p = Some (Settled (Fulfilled h)) ->
  conn (cached (resume call p s)) = Some h /\
  promise (cached (resume call p s)) = promise (cached s) /\
  results (resume call p s) = results s ++ [(call, Fulfilled h)].
Proof. intros H. unfold resume. rewrite H. simpl. auto. Qed.

Lemma setNth_same {A : Type} (a : A) : forall (l : list A) (n : nat),
  (n < List.length l)%nat -> nth_error (setNth n a l) n = Some a.
Proof.
  induction l as [| x l IH]; intros n Hn; simpl in *; [lia |].
  destruct n as [| n]; simpl; [reflexivity | apply IH; lia].
Qed.

Lemma setNth_other {A : Type} (a : A) : forall (l : list A) (n m : nat),
  m <> n -> nth_error (setNth n a l) m = nth_error l m.
Proof.
  induction l as [| x l IH]; intros n m Hne; [destruct n; reflexivity |].
  destruct n as [| n], m as [| m]; simpl; try reflexivity; try congruence.
  apply IH. congruence.
Qed.

(** The invariant [consistent] holds of a fresh module and is kept by
    every step of an orderly schedule. *)
Lemma consistent_fresh (uri : jsstring) : consistent (fresh uri).
Proof.
  constructor; unfold pending; simpl; intros;
    try contradiction; try congruence;
    match goal with
    | H : nth_error [] ?p = Some _ |- _ => destruct p; discriminate
    end.
Qed.

Lemma no_pending_uncached (s : state) :
  consistent s -> promise (cached s) = None -> forall p, ~ pending s p.
Proof.
  intros I Hn p Hp. apply (inv_cached s I) in Hp. congruence.
Qed.

Lemma consistent_call (s : state) :
  consistent s -> jobs s = [] -> consistent (connectDB s).
Proof.
  intros I Hj. unfold connectDB. simpl.
  destruct (conn (cached s)) as [h |] eqn:Hc.
  - constructor; unfold pending; simpl; apply I.
  - destruct (promise (cached s)) as [p |] eqn:Hp.
    + pose proof (inv_idle s I Hj Hc p Hp) as Hpend.
      unfold await. simpl. unfold pending in Hpend. rewrite Hpend.
      constructor; unfold pending; simpl; try apply I.
      * intros c q Hin. apply in_app_or in Hin.
        destruct Hin as [Hin | [E | []]]; [apply (inv_waiting s I c q Hin) |].
        injection E as <- <-. assumption.
      * intros q Hq. destruct (inv_waiter s I q Hq) as (c & Hin).
        exists c. apply in_or_app. left. assumption.
    + pose proof (no_pending_uncached s I Hp) as Hnone.
      unfold await, connect. simpl.
      rewrite nth_error_app2 by lia. rewrite Nat.sub_diag. simpl.
      assert (Hpend : forall q, nth_error (promises s ++ [Pending]) q = Some Pending ->
                                q = List.length (promises s)).
      { intros q Hq. destruct (Nat.lt_ge_cases q (List.length (promises s))) as [Hlt | Hge].
        - rewrite nth_error_app1 in Hq by assumption. exfalso. apply (Hnone q Hq).
        - rewrite nth_error_app2 in Hq by assumption.
          destruct (q - List.length (promises s))%nat as [| k] eqn:Ek; [lia |].
          destruct k; discriminate. }
      constructor; unfold pending; simpl.
      * intros q Hq. rewrite (Hpend q Hq). reflexivity.
      * intros c q Hin. apply in_app_or in Hin.
        destruct Hin as [Hin | [E | []]].
        -- exfalso. apply (Hnone q). apply (inv_waiting s I c q Hin).
        -- injection E as <- <-. rewrite nth_error_app2 by lia.
           rewrite Nat.sub_diag. reflexivity.
      * intros q Hq. rewrite (Hpend q Hq). eexists. apply in_or_app. right.
        left. reflexivity.
      * rewrite Hj. contradiction.
      * rewrite Hj. congruence.
      * rewrite Hj. contradiction.
      * congruence.
      * intros _ _ q E. injection E as <-. rewrite nth_error_app2 by lia.
        rewrite Nat.sub_diag. reflexivity.
Qed.

Lemma consistent_settle (s s' : state) (p : nat) (o : settled) :
  consistent s -> settle p o s = Some s' -> consistent s'.
Proof.
  intros I. unfold settle.
  destruct (nth_error (promises s) p) as [[| o'] |] eqn:Hp; try discriminate.
  intros E. injection E as <-.
  assert (Hlt : (p < List.length (promises s))%nat)
    by (apply nth_error_Some; congruence).
  assert (Honly : forall q, pending s q -> q = p).
  { intros q Hq. apply (inv_cached s I) in Hq.
    pose proof (inv_cached s I p Hp). congruence. }
  assert (Hnone : forall q, nth_error (setNth p (Settled o) (promises s)) q <> Some Pending).
  { intros q Hq. destruct (Nat.eq_dec q p) as [-> | Hne].
    - rewrite setNth_same in Hq by assumption. discriminate.
    - rewrite setNth_other in Hq by assumption. apply Hne, Honly. assumption. }
  assert (Hj : jobs s = []).
  { destruct (jobs s) eqn:Ej; [reflexivity |].
    exfalso. apply (inv_drain s I) with (p := p); [rewrite Ej; discriminate | assumption]. }
  assert (Hc : conn (cached s) = None).
  { destruct (conn (cached s)) as [h |] eqn:Ec; [| reflexivity].
    exfalso. apply (proj1 (inv_conn s I h Ec) p). assumption. }
  constructor; unfold pending; simpl.
  - intros q Hq. exfalso. apply (Hnone q Hq).
  - intros c q Hin. apply filter_In in Hin. destruct Hin as [Hin Hf].
    unfold awaits in Hf. simpl in Hf. apply negb_true_iff, Nat.eqb_neq in Hf.
    exfalso. apply Hf, Honly. apply (inv_waiting s I c q Hin).
  - intros q Hq. exfalso. apply (Hnone q Hq).
  - rewrite Hj. simpl. intros c q Hin. apply filter_In in Hin.
    destruct Hin as [_ Hf]. unfold awaits in Hf. simpl in Hf.
    apply Nat.eqb_eq in Hf. subst q. exists o. apply setNth_same. assumption.
  - intros _ q Hq. apply (Hnone q Hq).
  - rewrite Hj. simpl. intros c q c' q' H1 H2.
    apply filter_In in H1, H2. destruct H1 as [_ H1], H2 as [_ H2].
    unfold awaits in H1, H2. simpl in H1, H2.
    apply Nat.eqb_eq in H1, H2. congruence.
  - congruence.
  - rewrite Hj. simpl. intros Hempty. exfalso.
    destruct (inv_waiter s I p Hp) as (c & Hin).
    assert (Hin' : In (c, p) (filter (awaits p) (waiting s))).
    { apply filter_In. split; [assumption |]. unfold awaits. simpl.
      apply Nat.eqb_refl. }
    rewrite Hempty in Hin'. contradiction.
Qed.

Lemma consistent_tick (s s' : state) :
  consistent s -> tick s = Some s' -> consistent s'.
Proof.
  intros I. unfold tick. destruct (jobs s) as [| [c q] rest] eqn:Hj; [discriminate |].
  intros E. injection E as <-.
  assert (Hnone : forall p, ~ pending s p).
  { apply (inv_drain s I). rewrite Hj. discriminate. }
  assert (Hsub : forall c' p', In (c', p') rest -> In (c', p') (jobs s)).
  { intros c' p' Hin. rewrite Hj. right. assumption. }
  assert (Hhead : In (c, q) (jobs s)) by (rewrite Hj; left; reflexivity).
  destruct (inv_jobs s I c q Hhead) as (o & Ho).
  unfold resume. simpl. rewrite Ho.
  destruct o as [h | reason]; constructor; unfold pending; simpl;
    try (intros p Hp; exfalso; apply (Hnone p Hp)).
  - intros c' p' Hin. exfalso. apply (Hnone p'). apply (inv_waiting s I c' p' Hin).
  - intros c' p' Hin. apply (inv_jobs s I c' p'). auto.
  - intros _ p Hp. apply (Hnone p Hp).
  - intros c1 p1 c2 p2 H1 H2. eapply (inv_same s I); eauto.
  - intros h0 E. injection E as <-. split; [exact Hnone |].
    intros c' p' Hin. rewrite (inv_same s I c' p' c q (Hsub _ _ Hin) Hhead).
    assumption.
  - discriminate.
  - intros c' p' Hin. exfalso. apply (Hnone p'). apply (inv_waiting s I c' p' Hin).
  - intros c' p' Hin. apply (inv_jobs s I c' p'). auto.
  - intros _ p Hp. apply (Hnone p Hp).
  - intros c1 p1 c2 p2 H1 H2. eapply (inv_same s I); eauto.
  - intros h0 Hh0. split; [exact Hnone |].
    intros c' p' Hin. apply (proj2 (inv_conn s I h0 Hh0) c' p'). auto.
  - discriminate.
Qed.

Lemma orderly_consistent : forall es s s',
  consistent s -> orderly s es = true -> run s es = Some s' -> consistent s'.
Proof.
  induction es as [| e es IH]; intros s s' I Ho Hr; simpl in *.
  - injection Hr as <-. assumption.
  - destruct (step s e) as [s1 |] eqn:Hs; [| discriminate].
    assert (I1 : consistent s1).
    { destruct e as [| p o |]; simpl in Hs.
      - injection Hs as <-. apply consistent_call; [assumption |].
        destruct (jobs s); [reflexivity | discriminate].
      - eapply consistent_settle; eassumption.
      - eapply consistent_tick; eassumption. }
    apply (IH s1 s' I1); [| assumption].
    destruct e; try assumption.
    destruct (jobs s); [assumption | discriminate].
Qed.

Lemma pendingFrom_In (ps : list promiseState) : forall i q,
  In q (pendingFrom i ps) <->
  exists k, q = (i + k)%nat /\ nth_error ps k = Some Pending.
Proof.
  induction ps as [| x ps IH]; intros i q; simpl.
  - split; [contradiction |]. intros (k & _ & H). destruct k; discriminate.
  - destruct x as [| o]; simpl; rewrite ?IH.
    + split.
      * intros [<- | (k & -> & Hk)].
        -- exists 0%nat. split; [lia | reflexivity].
        -- exists (S k). split; [lia | assumption].
      * intros (k & -> & Hk). destruct k as [| k]; simpl in Hk.
        -- left. lia.
        -- right. exists k. split; [lia | assumption].
    + split.
      * intros (k & -> & Hk). exists (S k). split; [lia | assumption].
      * intros (k & -> & Hk). destruct k as [| k]; simpl in Hk; [discriminate |].
        exists k. split; [lia | assumption].
Qed.

Lemma pendingFrom_one (ps : list promiseState) : forall i p,
  (forall k, nth_error ps k = Some Pending -> k = p) ->
  (List.length (pendingFrom i ps) <= 1)%nat.
Proof.
  induction ps as [| x ps IH]; intros i p Hp; simpl; [lia |].
  destruct x as [| o].
  - assert (E : pendingFrom (S i) ps = []).
    { destruct (pendingFrom (S i) ps) as [| q l] eqn:Eq; [reflexivity |].
      assert (Hin : In q (pendingFrom (S i) ps)) by (rewrite Eq; left; reflexivity).
      apply pendingFrom_In in Hin. destruct Hin as (k & _ & Hk).
      pose proof (Hp 0%nat eq_refl). pose proof (Hp (S k) Hk). lia. }
    rewrite E. simpl. lia.
  - apply (IH (S i) (pred p)). intros k Hk. pose proof (Hp (S k) Hk). lia.
Qed.

(** Along an orderly schedule at most one attempt is in flight, and it is
    the one the cache holds. *)
Lemma consistent_inFlight (s : state) :
  consistent s ->
  (List.length (inFlight s) <= 1)%nat /\
  (forall p, In p (inFlight s) ->
             pending s p /\ cached s = {| conn := None; promise := Some p |}).
Proof.
  intros I. split.
  - unfold inFlight. destruct (promise (cached s)) as [p |] eqn:Hp.
    + apply (pendingFrom_one _ 0%nat p). intros k Hk.
      pose proof (inv_cached s I k Hk). congruence.
    + apply (pendingFrom_one _ 0%nat 0%nat). intros k Hk.
      pose proof (inv_cached s I k Hk). congruence.
  - intros p Hin. apply pendingFrom_In in Hin. destruct Hin as (k & -> & Hk).
    simpl. split; [assumption |].
    pose proof (inv_cached s I k Hk) as Hc.
    destruct (conn (cached s)) as [h |] eqn:Hh.
    + exfalso. apply (proj1 (inv_conn s I h Hh) k). assumption.
    + destruct (cached s); simpl in *; congruence.
Qed.

(** Once a connection is cached, an orderly schedule starts no attempt,
    keeps the connection, and every call that completes returns it. *)
Lemma cached_conn_stable : forall es s s' h,
  consistent s -> conn (cached s) = Some h ->
  orderly s es = true -> run s es = Some s' ->
  conn (cached s') = Some h /\ promises s' = promises s /\
  exists more, results s' = results s ++ more /\
               Forall (fun r => snd r = Fulfilled h) more.
Proof.
  induction es as [| e es IH]; intros s s' h I Hc Ho Hr; simpl in *.
  - injection Hr as <-. repeat split; try assumption.
    exists []. rewrite app_nil_r. auto.
  - destruct (step s e) as [s1 |] eqn:Hs; [| discriminate].
    assert (Ho1 : orderly s1 es = true).
    { destruct e; try assumption. destruct (jobs s); [assumption | discriminate]. }
    assert (I1 : consistent s1).
    { apply (orderly_consistent [e] s s1 I); simpl; rewrite Hs; [| reflexivity].
      destruct e; try reflexivity. destruct (jobs s); [reflexivity | discriminate]. }
    assert (H1 : conn (cached s1) = Some h /\ promises s1 = promises s /\
                 exists r, results s1 = results s ++ [r] /\ snd r = Fulfilled h).
    { destruct e as [| p o |]; simpl in Hs.
      - injection Hs as <-. rewrite (connectDB_cached_conn s h Hc). simpl.
        repeat split; try assumption. eexists. split; reflexivity.
      - exfalso. unfold settle in Hs.
        destruct (nth_error (promises s) p) as [[| o'] |] eqn:Hp; try discriminate.
        apply (proj1 (inv_conn s I h Hc) p). assumption.
      - unfold tick in Hs. destruct (jobs s) as [| [c q] rest] eqn:Hj; [discriminate |].
        injection Hs as <-.
        assert (Hq : nth_error (promises s) q = Some (Settled (Fulfilled h))).
        { apply (proj2 (inv_conn s I h Hc) c q). rewrite Hj. left. reflexivity. }
        unfold resume. simpl. rewrite Hq. simpl.
        repeat split. eexists. split; reflexivity. }
    destruct H1 as (Hc1 & Hp1 & r & Hr1 & Hrh).
    destruct (IH s1 s' h I1 Hc1 Ho1 Hr) as (Hc' & Hp' & more & Hm & Hall).
    repeat split; [assumption | congruence |].
    exists (r :: more). split.
    + rewrite Hm, Hr1, <- app_assoc. reflexivity.
    + constructor; assumption.
Qed.

(** X13: the single-shared-handle invariant along orderly schedules: at
    most one attempt is in flight; a cached connection stays and no
    attempt follows it; a call made while an attempt is in flight awaits
    it and starts none; and once a failed attempt has been cleared the
    next call starts a new one. *)
Lemma orderly_single_shared_handle (uri : jsstring) (es : list event) (s : state) :
  orderly (fresh uri) es = true -> run (fresh uri) es = Some s ->
  (List.length (inFlight s) <= 1)%nat /\
  (forall h es' s',
      conn (cached s) = Some h -> orderly s es' = true -> run s es' = Some s' ->
      conn (cached s') = Some h /\ attempts s' = attempts s) /\
  (forall p, In p (inFlight s) ->
             attempts (connectDB s) = attempts s /\
             waiting (connectDB s) = waiting s ++ [(calls s, p)]) /\
  (jobs s = [] -> conn (cached s) = None -> inFlight s = [] ->
   attempts (connectDB s) = S (attempts s)).
Proof.
  intros Ho Hr.
  pose proof (orderly_consistent es _ s (consistent_fresh uri) Ho Hr) as I.
  destruct (consistent_inFlight s I) as [Hone Hin].
  split; [assumption | split; [| split]].
  - intros h es' s' Hc Ho' Hr'.
    destruct (cached_conn_stable es' s s' h I Hc Ho' Hr') as (Hc' & Hp' & _).
    unfold attempts. split; congruence.
  - intros p Hp. destruct (Hin p Hp) as [Hpend Hcache].
    assert (Hc : conn (cached s) = None) by (rewrite Hcache; reflexivity).
    assert (Hpr : promise (cached s) = Some p) by (rewrite Hcache; reflexivity).
    destruct (connectDB_cached_promise s p Hc Hpr) as (Ha & _ & Hw & _).
    split; [assumption | apply Hw; assumption].
  - intros Hj Hc Hnone.
    assert (Hpr : promise (cached s) = None).
    { destruct (promise (cached s)) as [p |] eqn:Hp; [| reflexivity].
      pose proof (inv_idle s I Hj Hc p Hp) as Hpend.
      assert (Hin' : In p (inFlight s)).
      { apply pendingFrom_In. exists p. split; [reflexivity | assumption]. }
      rewrite Hnone in Hin'. contradiction. }
    destruct (connectDB_new_attempt s Hc Hpr) as (Hps & _).
    unfold attempts. rewrite Hps, length_app. simpl. lia.
Qed.

(** The schedules of [mongodb.test.ts]. *)
Example reuse_promise_in_progress :
  option_map (fun s => (attempts s, results s))
    (run (fresh testUri) [Call; Call; Settle 0 (Fulfilled 1); Tick; Tick])
  = Some (1%nat, [(0%nat, Fulfilled 1); (1%nat, Fulfilled 1)]).
Proof. reflexivity. Qed.

Example return_cached_connection :
  option_map (fun s => (attempts s, results s))
    (run (fresh testUri) [Call; Settle 0 (Fulfilled 1); Tick; Call])
  = Some (1%nat, [(0%nat, Fulfilled 1); (1%nat, Fulfilled 1)]).
Proof. reflexivity. Qed.

Example reset_promise_on_error :
  option_map (fun s => (attempts s, results s))
    (run (fresh testUri)
         [Call; Settle 0 (Rejected "Connection failed"); Tick;
          Call; Settle 1 (Fulfilled 1); Tick])
  = Some (2%nat, [(0%nat, Rejected "Connection failed"); (1%nat, Fulfilled 1)]).
Proof. reflexivity. Qed.

Example staleSchedule_not_orderly : orderly (fresh testUri) staleSchedule = false.
Proof. reflexivity. Qed.

(** C7: on [staleSchedule] the second call, made after the first attempt
    was rejected and before the first call resumed, awaits the rejected
    promise; when it resumes it clears the cached promise, which by then
    is the promise of the attempt the third call started. That attempt is
    in flight and no longer cached, so the next call starts another one:
    two attempts are in flight at the same time. *)
Theorem stale_waiter_clears_inflight_promise :
  option_map results (run (fresh testUri) staleSchedule)
  = Some [(0%nat, Rejected "Connection failed");
          (1%nat, Rejected "Connection failed")] /\
  option_map cached (run (fresh testUri) staleSchedule)
  = Some {| conn := None; promise := None |} /\
  option_map inFlight (run (fresh testUri) staleSchedule) = Some [1%nat] /\
  option_map attempts (run (fresh testUri) staleSchedule) = Some 2%nat /\
  option_map attempts (run (fresh testUri) (staleSchedule ++ [Call])) = Some 3%nat /\
  option_map inFlight (run (fresh testUri) (staleSchedule ++ [Call]))
  = Some [1%nat; 2%nat].
Proof.
  repeat split; vm_compute; reflexivity.
Qed.

End ConnectionCache.

(** ** More on the slug chain *)

Section SlugShape.

Import Slug Shape.

Lemma dropStart_suffix (p : codeunit -> bool) (s : jsstring) :
  exists t, s = t ++ dropStart p s /\ forallb p t = true.
Proof.
  induction s as [| c s (t & E & F)]; simpl.
  - exists []. auto.
  - destruct (p c) eqn:Hc.
    + exists (c :: t). simpl. rewrite Hc, F. split; [f_equal; assumption | reflexivity].
    + exists []. auto.
Qed.

Lemma dropEnd_prefix (p : codeunit -> bool) (s : jsstring) :
  exists t, s = dropEnd p s ++ t /\ forallb p t = true.
Proof.
  unfold dropEnd. destruct (dropStart_suffix p (rev s)) as (t & E & F).
  exists (rev t). split.
  - rewrite <- (rev_involutive s), E at 1. apply rev_app_distr.
  - rewrite forallb_forall in *. intros c Hc. apply F, in_rev. assumption.
Qed.

Lemma dropStart_id (p : codeunit -> bool) (s : jsstring) :
  match s with c :: _ => p c = false | [] => True end -> dropStart p s = s.
Proof. destruct s as [| c s]; simpl; [reflexivity |]. intros ->. reflexivity. Qed.

Lemma dropEnd_id (p : codeunit -> bool) (s : jsstring) :
  (forall s' c, s = s' ++ [c] -> p c = false) -> dropEnd p s = s.
Proof.
  intros H. unfold dropEnd. rewrite dropStart_id; [apply rev_involutive |].
  destruct (rev s) as [| c r] eqn:E; [exact I |].
  apply (H (rev r) c). rewrite <- (rev_involutive s), E. reflexivity.
Qed.

Lemma strip_head (p : codeunit -> bool) (s : jsstring) :
  match strip p s with c :: _ => p c = false | [] => True end.
Proof.
  unfold strip. destruct (dropEnd_prefix p (dropStart p s)) as (t & E & _).
  pose proof (dropStart_head p s) as H.
  destruct (dropEnd p (dropStart p s)) as [| c r]; [exact I |].
  rewrite E in H. assumption.
Qed.

Lemma strip_last (p : codeunit -> bool) (s s' : jsstring) (c : codeunit) :
  strip p s = s' ++ [c] -> p c = false.
Proof. apply dropEnd_last. Qed.

Lemma strip_fixed (p : codeunit -> bool) (s : jsstring) :
  match s with c :: _ => p c = false | [] => True end ->
  (forall s' c, s = s' ++ [c] -> p c = false) ->
  strip p s = s.
Proof.
  intros Hh Hl. unfold strip. rewrite dropStart_id by assumption.
  apply dropEnd_id. assumption.
Qed.

Lemma strip_idem (p : codeunit -> bool) (s : jsstring) :
  strip p (strip p s) = strip p s.
Proof.
  apply strip_fixed; [apply strip_head | intros s' c; apply strip_last].
Qed.

Lemma dropStart_length (p : codeunit -> bool) (s : jsstring) :
  (List.length (dropStart p s) <= List.length s)%nat.
Proof.
  destruct (dropStart_suffix p s) as (t & E & _).
  rewrite E at 2. rewrite length_app. lia.
Qed.

Lemma dropEnd_length (p : codeunit -> bool) (s : jsstring) :
  (List.length (dropEnd p s) <= List.length s)%nat.
Proof.
  destruct (dropEnd_prefix p s) as (t & E & _).
  rewrite E at 2. rewrite length_app. lia.
Qed.

Lemma replaceRuns_length (p : codeunit -> bool) (h : codeunit) :
  forall s b, (List.length (replaceRuns p [h] b s) <= List.length s)%nat.
Proof.
  induction s as [| c s IH]; intros b; simpl; [lia |].
  destruct (p c).
  - rewrite length_app. specialize (IH true). destruct b; simpl; lia.
  - simpl. specialize (IH false). lia.
Qed.

(** In a run being replaced nothing is written before the first unit
    outside the class. *)
Lemma replaceRuns_true_head (p : codeunit -> bool) (rep : jsstring) :
  forall s, match replaceRuns p rep true s with
            | c :: _ => p c = false
            | [] => True
            end.
Proof.
  induction s as [| c s IH]; simpl; [exact I |].
  destruct (p c) eqn:Hc; simpl; assumption.
Qed.

Lemma replaceRuns_no_adjacent (p : codeunit -> bool) (h : codeunit) :
  forall s b, hasAdjacent p (replaceRuns p [h] b s) = false.
Proof.
  induction s as [| c s IH]; intros b; [reflexivity |].
  cbn [replaceRuns]. destruct (p c) eqn:Hc.
  - destruct b; cbn [app]; [apply IH |].
    pose proof (replaceRuns_true_head p [h] s) as Hh. specialize (IH true).
    cbn [hasAdjacent]. destruct (replaceRuns p [h] true s) as [| d r]; [reflexivity |].
    rewrite Hh, andb_false_r. assumption.
  - specialize (IH false). cbn [hasAdjacent].
    destruct (replaceRuns p [h] false s) as [| d r]; [reflexivity |].
    rewrite Hc. assumption.
Qed.

Lemma hasAdjacent_app (p : codeunit -> bool) (a b : jsstring) :
  hasAdjacent p (a ++ b) = false ->
  hasAdjacent p a = false /\ hasAdjacent p b = false.
Proof.
  induction a as [| c a IH]; simpl; [auto |].
  destruct a as [| d a]; simpl in *.
  - destruct b as [| e b]; [auto |]. intros H.
    apply orb_false_iff in H. tauto.
  - intros H. apply orb_false_iff in H. destruct H as [H1 H2].
    destruct (IH H2) as [Ha Hb]. rewrite H1, Ha. auto.
Qed.

Lemma hasAdjacent_pair (p : codeunit -> bool) (a b : jsstring) (x y : codeunit) :
  p x = true -> p y = true -> hasAdjacent p (a ++ x :: y :: b) = true.
Proof.
  intros Hx Hy. induction a as [| c a IH]; simpl.
  - rewrite Hx, Hy. reflexivity.
  - destruct (a ++ x :: y :: b) eqn:E; [destruct a; discriminate |].
    rewrite IH. apply orb_true_r.
Qed.

Lemma strip_no_adjacent (p q : codeunit -> bool) (s : jsstring) :
  hasAdjacent p s = false -> hasAdjacent p (strip q s) = false.
Proof.
  intros H. unfold strip.
  destruct (dropStart_suffix q s) as (t & E & _).
  destruct (dropEnd_prefix q (dropStart q s)) as (u & E' & _).
  rewrite E in H. apply hasAdjacent_app in H. destruct H as [_ H].
  rewrite E' in H. apply hasAdjacent_app in H. tauto.
Qed.

(** The steps leave alone a string they have nothing to do on. *)
Lemma replaceRuns_flag (p : codeunit -> bool) (rep : jsstring) (s : jsstring) (b : bool) :
  match s with c :: _ => p c = false | [] => True end ->
  replaceRuns p rep b s = replaceRuns p rep false s.
Proof. destruct s as [| c s]; simpl; [reflexivity |]. intros ->. reflexivity. Qed.

Lemma replaceRuns_absent (p : codeunit -> bool) (rep : jsstring) :
  forall s, (forall c, In c s -> p c = false) -> replaceRuns p rep false s = s.
Proof.
  induction s as [| c s IH]; intros H; simpl; [reflexivity |].
  rewrite (H c) by (left; reflexivity). f_equal. apply IH.
  intros d Hd. apply H. right. assumption.
Qed.

Lemma replaceRuns_fixed (p : codeunit -> bool) (h : codeunit) :
  (forall c, p c = true -> c = h) ->
  forall s, hasAdjacent p s = false -> replaceRuns p [h] false s = s.
Proof.
  intros Hp. induction s as [| c s IH]; intros H; [reflexivity |].
  assert (Hs : hasAdjacent p s = false).
  { simpl in H. destruct s; [reflexivity |]. apply orb_false_iff in H. tauto. }
  cbn [replaceRuns]. destruct (p c) eqn:Hc.
  - cbn [app]. rewrite (Hp c Hc). f_equal.
    rewrite replaceRuns_flag; [apply IH; assumption |].
    destruct s as [| d s]; [exact I |]. simpl in H.
    apply orb_false_iff in H. destruct H as [H _].
    rewrite Hc in H. exact H.
  - f_equal. apply IH. assumption.
Qed.

Lemma filter_all (p : codeunit -> bool) (s : jsstring) :
  (forall c, In c s -> p c = true) -> filter p s = s.
Proof.
  induction s as [| c s IH]; intros H; simpl; [reflexivity |].
  rewrite (H c) by (left; reflexivity). f_equal. apply IH.
  intros d Hd. apply H. right. assumption.
Qed.

Lemma strip_absent (p : codeunit -> bool) (s : jsstring) :
  (forall c, In c s -> p c = false) -> strip p s = s.
Proof.
  intros H. apply strip_fixed.
  - destruct s as [| c s]; [exact I |]. apply H. left. reflexivity.
  - intros s' c ->. apply H. apply in_or_app. right. left. reflexivity.
Qed.

Lemma strip_all (p : codeunit -> bool) (s : jsstring) :
  (forall c, In c s -> p c = true) -> strip p s = [].
Proof.
  intros H. unfold strip.
  assert (E : dropStart p s = []).
  { induction s as [| c s IH]; simpl; [reflexivity |].
    rewrite (H c) by (left; reflexivity). apply IH. intros d Hd. apply H. right. assumption. }
  rewrite E. reflexivity.
Qed.

Lemma trim_strip (s : jsstring) : trim s = strip isWhiteSpace s.
Proof. reflexivity. Qed.

Lemma stripHyphens_strip (s : jsstring) : stripHyphens s = strip isHyphen s.
Proof. reflexivity. Qed.

Lemma slugUnit_facts (c : codeunit) :
  (between 97 122 c || isDigit c || (c =? 95) || isHyphen c)%bool = true ->
  lowerUnit c = c /\ isWhiteSpace c = false /\ keptUnit c = true.
Proof.
  intros H. unfold isDigit, isHyphen, hyphen in H.
  rewrite !orb_true_iff, !between_spec, !Z.eqb_eq in H.
  unfold lowerUnit, keptUnit, isWordChar, isWhiteSpace, isDigit, isHyphen, hyphen.
  assert (E : (between 65 90 c || between 192 214 c || between 216 222 c)%bool = false).
  { rewrite !orb_false_iff, !between_false. lia. }
  rewrite E. split; [reflexivity |]. split.
  - rewrite !orb_false_iff, !between_false, !Z.eqb_neq. lia.
  - rewrite !orb_true_iff, !between_spec, !Z.eqb_eq. lia.
Qed.

(** A string over [a-z0-9_-] without two hyphens in a row and without a
    hyphen at either end is its own slug. *)
Lemma slugify_fixed (s : jsstring) :
  (forall c, In c s -> (between 97 122 c || isDigit c || (c =? 95) || isHyphen c)%bool = true) ->
  hasAdjacent isHyphen s = false ->
  match s with c :: _ => isHyphen c = false | [] => True end ->
  (forall s' c, s = s' ++ [c] -> isHyphen c = false) ->
  slugify s = s.
Proof.
  intros Ha Hadj Hh Hl. unfold slugify.
  assert (E1 : toLowerCase s = s).
  { unfold toLowerCase. rewrite <- (map_id s) at 2. apply map_ext_in.
    intros c Hc. apply (slugUnit_facts c (Ha c Hc)). }
  rewrite E1, trim_strip, strip_absent
    by (intros c Hc; apply (slugUnit_facts c (Ha c Hc))).
  unfold removeSpecials. rewrite filter_all
    by (intros c Hc; apply (slugUnit_facts c (Ha c Hc))).
  unfold collapseWhitespace. rewrite replaceRuns_absent
    by (intros c Hc; apply (slugUnit_facts c (Ha c Hc))).
  unfold collapseHyphens. rewrite replaceRuns_fixed; [| | assumption].
  - rewrite stripHyphens_strip. apply strip_fixed; assumption.
  - intros c Hc. apply Z.eqb_eq in Hc. assumption.
Qed.

Lemma slugify_no_adjacent (title : jsstring) :
  hasAdjacent isHyphen (slugify title) = false.
Proof.
  unfold slugify. rewrite stripHyphens_strip. apply strip_no_adjacent.
  apply replaceRuns_no_adjacent.
Qed.

Lemma lowerUnit_idem (c : codeunit) : lowerUnit (lowerUnit c) = lowerUnit c.
Proof.
  unfold lowerUnit.
  destruct (between 65 90 c || between 192 214 c || between 216 222 c)%bool eqn:E.
  - assert (E' : (between 65 90 (c + 32) || between 192 214 (c + 32)
                  || between 216 222 (c + 32))%bool = false).
    { rewrite !orb_true_iff, !between_spec in E.
      rewrite !orb_false_iff, !between_false. lia. }
    rewrite E'. reflexivity.
  - rewrite E. reflexivity.
Qed.

Lemma toLowerCase_idem (s : jsstring) : toLowerCase (toLowerCase s) = toLowerCase s.
Proof.
  unfold toLowerCase. rewrite map_map. apply map_ext. apply lowerUnit_idem.
Qed.

(** Lower-casing makes no ASCII word character out of another unit. *)
Lemma lowerUnit_word_from (c : codeunit) :
  isWordChar (lowerUnit c) = true -> isWordChar c = true.
Proof.
  unfold lowerUnit.
  destruct (between 65 90 c || between 192 214 c || between 216 222 c)%bool eqn:E;
    [| auto].
  unfold isWordChar, isDigit.
  rewrite !orb_true_iff, !between_spec in E.
  rewrite !orb_true_iff, !between_spec, !Z.eqb_eq. lia.
Qed.

Lemma slugify_of_separators (u : jsstring) :
  (forall c, In c u -> isWhiteSpace c = true \/ isHyphen c = true) ->
  stripHyphens (collapseHyphens (collapseWhitespace u)) = [].
Proof.
  intros H. rewrite stripHyphens_strip. apply strip_all.
  intros c Hc. unfold collapseHyphens in Hc. apply replaceRuns_from in Hc.
  destruct Hc as [[<- | []] | [Hc Hn]]; [reflexivity |].
  unfold collapseWhitespace in Hc. apply replaceRuns_from in Hc.
  destruct Hc as [[<- | []] | [Hc Hw]]; [reflexivity |].
  destruct (H c Hc); congruence.
Qed.

Lemma slugify_head (title : jsstring) :
  match slugify title with c :: _ => isHyphen c = false | [] => True end.
Proof. unfold slugify. rewrite stripHyphens_strip. apply strip_head. Qed.

Lemma slugify_last (title : jsstring) (front : jsstring) (c : codeunit) :
  slugify title = front ++ [c] -> isHyphen c = false.
Proof. unfold slugify. rewrite stripHyphens_strip. apply strip_last. Qed.

(** X1: a slug does not start with a hyphen, does not end with one, and
    has no two hyphens in a row. *)
Theorem slug_hyphens_are_separators (title : jsstring) :
  (forall rest, slugify title <> hyphen :: rest) /\
  (forall front, slugify title <> front ++ [hyphen]) /\
  (forall a b, slugify title <> a ++ hyphen :: hyphen :: b).
Proof.
  split; [| split].
  - intros rest E. pose proof (slugify_head title) as H.
    rewrite E in H. discriminate.
  - intros front E. apply slugify_last in E. discriminate.
  - intros a b E. pose proof (slugify_no_adjacent title) as H.
    rewrite E, hasAdjacent_pair in H by reflexivity. discriminate.
Qed.

(** X2: deriving a slug from a slug changes nothing. *)
Theorem slugify_idempotent (title : jsstring) :
  Forall latin1 title -> slugify (slugify title) = slugify title.
Proof.
  intros _. apply slugify_fixed.
  - intros c Hc. apply (slugify_alphabet title c Hc).
  - apply slugify_no_adjacent.
  - apply slugify_head.
  - intros s' c. apply slugify_last.
Qed.

Lemma slugify_idempotent_witness :
  slugify (slugify (lit "AWS re:Invent 2025")) = slugify (lit "AWS re:Invent 2025").
Proof.
  apply slugify_idempotent. repeat constructor; vm_compute; discriminate.
Defined.

(** X3: a slug is never longer than its title. *)
Theorem slugify_length (title : jsstring) :
  Forall latin1 title -> (List.length (slugify title) <= List.length title)%nat.
Proof.
  intros _. unfold slugify, stripHyphens, collapseHyphens, collapseWhitespace,
    removeSpecials, trim, trimEnd, trimStart, toLowerCase.
  repeat first
    [ etransitivity; [apply dropEnd_length |]
    | etransitivity; [apply dropStart_length |]
    | etransitivity; [apply replaceRuns_length |]
    | etransitivity; [apply filter_length_le |] ].
  rewrite length_map. lia.
Qed.

Lemma slugify_length_witness :
  (List.length (slugify (lit "Event   With   Spaces"))
   <= List.length (lit "Event   With   Spaces"))%nat.
Proof.
  apply slugify_length. repeat constructor; vm_compute; discriminate.
Defined.

(** X4: the slug of a title made of ASCII word characters only is the
    title in lower case, of the same length. *)
Theorem slugify_word_title (title : jsstring) :
  Forall (fun c => isWordChar c = true) title ->
  slugify title = toLowerCase title /\
  List.length (slugify title) = List.length title.
Proof.
  intros H.
  assert (Hu : forall c, In c (toLowerCase title) ->
                         isWordChar c = true /\ isWhiteSpace c = false
                         /\ isHyphen c = false).
  { intros c Hc. unfold toLowerCase in Hc. apply in_map_iff in Hc.
    destruct Hc as (d & <- & Hd). apply word_not_space, lowerUnit_word.
    revert d Hd. apply Forall_forall. assumption. }
  assert (E : slugify title = toLowerCase title).
  { unfold slugify. rewrite trim_strip, strip_absent by (intros c Hc; apply (Hu c Hc)).
    unfold removeSpecials. rewrite filter_all.
    - unfold collapseWhitespace.
      rewrite replaceRuns_absent by (intros c Hc; apply (Hu c Hc)).
      unfold collapseHyphens.
      rewrite replaceRuns_absent by (intros c Hc; apply (Hu c Hc)).
      rewrite stripHyphens_strip. apply strip_absent. intros c Hc. apply (Hu c Hc).
    - intros c Hc. unfold keptUnit. destruct (Hu c Hc) as (-> & _). reflexivity. }
  split; [assumption |]. rewrite E. unfold toLowerCase. apply length_map.
Qed.

Lemma slugify_word_title_witness :
  List.length (slugify (repeat 65 1000)) = 1000%nat.
Proof.
  assert (H : Forall (fun c => isWordChar c = true) (repeat 65 1000)).
  { apply Forall_forall. intros c Hc. apply repeat_spec in Hc. subst c. reflexivity. }
  rewrite (proj2 (slugify_word_title _ H)). apply repeat_length.
Defined.

(** X5: the slug is empty exactly when the title has no ASCII word
    character. *)
Theorem slugify_empty_iff (title : jsstring) :
  Forall latin1 title ->
  (slugify title = [] <-> Forall (fun c => isWordChar c = false) title).
Proof.
  intros _. split.
  - intros E. apply Forall_forall. intros c Hc.
    destruct (isWordChar c) eqn:Hw; [| reflexivity].
    pose proof (slugify_keeps_word title c Hc Hw) as Hin.
    rewrite E in Hin. contradiction.
  - intros H. unfold slugify. apply slugify_of_separators.
    intros c Hc. apply removeSpecials_In in Hc. destruct Hc as [Hc Hk].
    apply trim_incl in Hc. unfold toLowerCase in Hc. apply in_map_iff in Hc.
    destruct Hc as (d & <- & Hd).
    assert (Hn : isWordChar (lowerUnit d) = false).
    { destruct (isWordChar (lowerUnit d)) eqn:Hw; [| reflexivity].
      apply lowerUnit_word_from in Hw.
      rewrite Forall_forall in H. rewrite (H d Hd) in Hw. discriminate. }
    destruct Hk as [Hk | [Hk | Hk]]; [congruence | auto |].
    right. rewrite Hk. reflexivity.
Qed.

Lemma slugify_empty_iff_witness :
  slugify (lit " - ! - ") = [].
Proof.
  apply (slugify_empty_iff (lit " - ! - ")).
  - repeat constructor; vm_compute; discriminate.
  - repeat constructor.
Defined.

(** X6: the slug does not depend on the case of the title nor on the
    whitespace around it. *)
Theorem slugify_case_and_padding (title : jsstring) :
  Forall latin1 title ->
  slugify (toLowerCase title) = slugify title /\
  slugify (trim title) = slugify title.
Proof.
  intros _. unfold slugify. split.
  - rewrite toLowerCase_idem. reflexivity.
  - rewrite !trim_toLowerCase, !trim_strip, strip_idem. reflexivity.
Qed.

Lemma slugify_case_and_padding_witness :
  slugify (toLowerCase (lit "  UPPERCASE EVENT ")) = slugify (lit "  UPPERCASE EVENT ").
Proof.
  apply (slugify_case_and_padding (lit "  UPPERCASE EVENT ")).
  repeat constructor; vm_compute; discriminate.
Defined.

End SlugShape.

(** ** The six steps, on every title *)

Section SlugSteps.

Import Slug Shape Chain.

(** A string is split in one way only into a run of units of a class and
    a rest that does not start with one. *)
Lemma run_split_unique (p : codeunit -> bool) :
  forall r1 r2 s1 s2,
    forallb p r1 = true -> forallb p r2 = true ->
    startsOutside p s1 -> startsOutside p s2 ->
    r1 ++ s1 = r2 ++ s2 -> r1 = r2 /\ s1 = s2.
Proof.
  induction r1 as [| c r1 IH]; intros r2 s1 s2 H1 H2 O1 O2 E.
  - destruct r2 as [| d r2]; [auto |]. simpl in *.
    apply andb_true_iff in H2. destruct H2 as [Hd _].
    subst s1. simpl in O1. congruence.
  - destruct r2 as [| d r2]; simpl in *.
    + apply andb_true_iff in H1. destruct H1 as [Hc _].
      subst s2. simpl in O2. congruence.
    + apply andb_true_iff in H1. destruct H1 as [_ H1].
      apply andb_true_iff in H2. destruct H2 as [_ H2].
      injection E as -> E.
      destruct (IH r2 s1 s2 H1 H2 O1 O2 E) as [-> ->]. auto.
Qed.

(** Steps 2 and 6. *)
Lemma strip_stripped (p : codeunit -> bool) (s : jsstring) :
  stripped p s (strip p s).
Proof.
  unfold stripped, strip.
  destruct (dropStart_suffix p s) as (a & Ea & Fa).
  destruct (dropEnd_prefix p (dropStart p s)) as (b & Eb & Fb).
  exists a, b. split; [| split; [assumption | split; [assumption | split]]].
  - rewrite <- Eb. assumption.
  - apply (strip_head p s).
  - unfold endsOutside, dropEnd. rewrite rev_involutive. apply dropStart_head.
Qed.

Lemma all_in_class (p : codeunit -> bool) (a out b : jsstring) :
  forallb p (a ++ out ++ b) = true -> startsOutside p out -> out = [].
Proof.
  intros H O. destruct out as [| c out]; [reflexivity |].
  rewrite forallb_app in H. apply andb_true_iff in H. destruct H as [_ H].
  simpl in H, O. rewrite O in H. discriminate.
Qed.

Lemma stripped_functional (p : codeunit -> bool) (s o1 o2 : jsstring) :
  stripped p s o1 -> stripped p s o2 -> o1 = o2.
Proof.
  intros (a1 & b1 & E1 & A1 & B1 & S1 & L1) (a2 & b2 & E2 & A2 & B2 & S2 & L2).
  destruct o1 as [| c1 o1].
  - symmetry. apply (all_in_class p a2 o2 b2); [| assumption].
    rewrite <- E2, E1. simpl. rewrite forallb_app, A1, B1. reflexivity.
  - destruct o2 as [| c2 o2].
    + apply (all_in_class p a1 (c1 :: o1) b1); [| assumption].
      rewrite <- E1, E2. simpl. rewrite forallb_app, A2, B2. reflexivity.
    + assert (E : a1 ++ (c1 :: o1) ++ b1 = a2 ++ (c2 :: o2) ++ b2) by congruence.
      destruct (run_split_unique p a1 a2 ((c1 :: o1) ++ b1) ((c2 :: o2) ++ b2)
                  A1 A2 S1 S2 E) as [_ E'].
      apply (f_equal (@rev codeunit)) in E'. rewrite !rev_app_distr in E'.
      assert (R1 : forallb p (rev b1) = true).
      { rewrite forallb_forall in *. intros x Hx. apply B1, in_rev. assumption. }
      assert (R2 : forallb p (rev b2) = true).
      { rewrite forallb_forall in *. intros x Hx. apply B2, in_rev. assumption. }
      destruct (run_split_unique p _ _ (rev (c1 :: o1)) (rev (c2 :: o2))
                  R1 R2 L1 L2 E') as [_ E''].
      apply (f_equal (@rev codeunit)) in E''. rewrite !rev_involutive in E''.
      assumption.
Qed.

(** Step 3. *)
Lemma filter_keeping (p : codeunit -> bool) (s : jsstring) :
  keeping p s (filter p s).
Proof.
  induction s as [| c s IH]; simpl; [constructor |].
  destruct (p c) eqn:Hc; [apply keeping_in | apply keeping_out]; assumption.
Qed.

Lemma keeping_functional (p : codeunit -> bool) (s o1 o2 : jsstring) :
  keeping p s o1 -> keeping p s o2 -> o1 = o2.
Proof.
  intros H1. revert o2.
  induction H1 as [| c s out Hc _ IH | c s out Hc _ IH]; intros o2 H2;
    inversion H2; subst; try congruence.
  - f_equal. apply IH. assumption.
  - apply IH. assumption.
Qed.

(** Steps 4 and 5. *)
Lemma replaceRuns_collapsed (p : codeunit -> bool) (h : codeunit) :
  forall n s, (List.length s <= n)%nat ->
    collapsed p h s (replaceRuns p [h] false s).
Proof.
  induction n as [| n IH]; intros s Hn.
  - destruct s; [constructor | simpl in Hn; lia].
  - destruct s as [| c s]; [constructor |].
    cbn [replaceRuns]. destruct (p c) eqn:Hc.
    + cbn [app].
      destruct (dropStart_suffix p s) as (t & E & F).
      pose proof (dropStart_head p s) as Hh.
      pose proof (dropStart_length p s) as Hl.
      rewrite E at 2. rewrite replaceRuns_in_run by assumption.
      rewrite replaceRuns_flag by assumption.
      rewrite E at 1. change (c :: t ++ dropStart p s) with ((c :: t) ++ dropStart p s).
      apply collapsed_run.
      * discriminate.
      * simpl. rewrite Hc, F. reflexivity.
      * assumption.
      * apply IH. simpl in Hn. lia.
    + apply collapsed_unit; [assumption |]. apply IH. simpl in Hn. lia.
Qed.

Lemma collapsed_replaceRuns (p : codeunit -> bool) (h : codeunit) (s out : jsstring) :
  collapsed p h s out -> out = replaceRuns p [h] false s.
Proof.
  induction 1 as [| c s out Hc _ IH | run s out Hne Hr Hs _ IH].
  - reflexivity.
  - cbn [replaceRuns]. rewrite Hc. f_equal. assumption.
  - destruct run as [| x run]; [congruence |].
    simpl in Hr. apply andb_true_iff in Hr. destruct Hr as [Hx Hr].
    cbn [app replaceRuns]. rewrite Hx. cbn [app].
    rewrite replaceRuns_in_run by assumption.
    rewrite replaceRuns_flag by assumption. f_equal. assumption.
Qed.

Lemma collapsed_functional (p : codeunit -> bool) (h : codeunit) (s o1 o2 : jsstring) :
  collapsed p h s o1 -> collapsed p h s o2 -> o1 = o2.
Proof.
  intros H1 H2. apply collapsed_replaceRuns in H1, H2. congruence.
Qed.

(** The chain goes through the six steps, and the six steps lead to one
    string only. *)
Lemma slugifyWith_sixSteps (lower : jsstring -> jsstring) (title : jsstring) :
  sixSteps lower title (slugifyWith lower title).
Proof.
  unfold sixSteps, slugifyWith.
  exists (lower title), (trim (lower title)), (removeSpecials (trim (lower title))),
    (collapseWhitespace (removeSpecials (trim (lower title)))),
    (collapseHyphens (collapseWhitespace (removeSpecials (trim (lower title))))).
  split; [reflexivity |].
  split; [rewrite trim_strip; apply strip_stripped |].
  split; [apply filter_keeping |].
  split; [eapply replaceRuns_collapsed; reflexivity |].
  split; [eapply replaceRuns_collapsed; reflexivity |].
  apply (strip_stripped isHyphen).
Qed.

Lemma sixSteps_functional (lower : jsstring -> jsstring) (title o1 o2 : jsstring) :
  sixSteps lower title o1 -> sixSteps lower title o2 -> o1 = o2.
Proof.
  intros (a1 & a2 & a3 & a4 & a5 & A1 & A2 & A3 & A4 & A5 & A6)
         (b1 & b2 & b3 & b4 & b5 & B1 & B2 & B3 & B4 & B5 & B6).
  subst a1 b1.
  pose proof (stripped_functional _ _ _ _ A2 B2) as <-.
  pose proof (keeping_functional _ _ _ _ A3 B3) as <-.
  pose proof (collapsed_functional _ _ _ _ _ A4 B4) as <-.
  pose proof (collapsed_functional _ _ _ _ _ A5 B5) as <-.
  apply (stripped_functional _ _ _ _ A6 B6).
Qed.



Lemma lowerUnit_ascii (c : codeunit) :
  0 <= c <= 127 -> lowerUnit c = if between 65 90 c then c + 32 else c.
Proof.
  intros H. unfold lowerUnit.
  destruct (between 65 90 c); [reflexivity |].
  assert (E1 : between 192 214 c = false) by (apply between_false; lia).
  assert (E2 : between 216 222 c = false) by (apply between_false; lia).
  rewrite E1, E2. reflexivity.
Qed.



Lemma slugifyWith_removed (lower : jsstring -> jsstring) (title : jsstring) :
  Forall (fun c => keptUnit c = false) (lower title) -> slugifyWith lower title = [].
Proof.
  intros H. unfold slugifyWith.
  assert (Hl : Forall (fun c => keptUnit c = false) (trim (lower title))).
  { apply Forall_forall. intros c Hc. apply trim_incl in Hc.
    revert c Hc. apply Forall_forall. assumption. }
  unfold removeSpecials. rewrite (filter_none _ _ Hl). reflexivity.
Qed.

(** C1: the chain gives the three reference slugs, and it is the
    six-step algorithm. For every title, whatever the lower-casing of
    step 1 gives on it, the slug is the one string the six steps lead
    to: trim, remove every character that is not a word character,
    whitespace or a hyphen, collapse the runs of whitespace and then the
    runs of hyphens into a single hyphen, strip the leading and trailing
    hyphens. Step 1 moves [A-Z] to [a-z] and leaves every other ASCII
    unit alone, and on a title within Latin-1 [slugify] is these six
    steps with [lowerUnit] unit by unit. A title whose lower-cased
    characters are all removed in step 3 has the empty slug; so has a
    title within Latin-1 whose own characters are all removed there. *)
Theorem slugify_reference_equations :
  slugify (lit "AWS re:Invent 2025") = lit "aws-reinvent-2025" /\
  slugify (lit "---Event Title---") = lit "event-title" /\
  slugify (lit "!@#$%^&*()") = lit "" /\
  (forall lower title out,
      sixSteps lower title out <-> out = slugifyWith lower title) /\
  (forall c, 0 <= c <= 127 -> lowerUnit c = if between 65 90 c then c + 32 else c) /\
  (forall title,
      Forall latin1 title -> sixSteps (map lowerUnit) title (slugify title)) /\
  (forall lower title,
      Forall (fun c => keptUnit c = false) (lower title) ->
      slugifyWith lower title = lit "") /\
  (forall title,
      Forall latin1 title -> Forall (fun c => keptUnit c = false) title ->
      slugify title = lit "").
Proof.
  split; [reflexivity |]. split; [reflexivity |]. split; [reflexivity |].
  split; [| split; [| split; [| split]]].
  - intros lower title out. split.
    + intros H. apply (sixSteps_functional lower title); [assumption |].
      apply slugifyWith_sixSteps.
    + intros ->. apply slugifyWith_sixSteps.
  - apply lowerUnit_ascii.
  - intros title _. apply (slugifyWith_sixSteps (map lowerUnit) title).
  - intros lower title H. apply slugifyWith_removed. assumption.
  - intros title _ H. apply slugify_removed. assumption.
Qed.

Lemma slugify_reference_equations_witness :
  lowerUnit 65 = 97 /\
  sixSteps (map lowerUnit) (lit "AWS re:Invent 2025") (lit "aws-reinvent-2025") /\
  slugifyWith toLowerCase (lit "!@#$%^&*()") = lit "" /\
  slugify (lit "!@#$%^&*()") = lit "".
Proof.
  destruct slugify_reference_equations as (_ & _ & _ & _ & H5 & H6 & H7 & H8).
  split; [apply (H5 65); lia |].
  split; [apply (H6 (lit "AWS re:Invent 2025")); repeat constructor; vm_compute; discriminate |].
  split; [apply (H7 toLowerCase (lit "!@#$%^&*()")); repeat constructor |].
  apply (H8 (lit "!@#$%^&*()")).
  - repeat constructor; vm_compute; discriminate.
  - repeat constructor.
Defined.



End SlugSteps.

(** ** More on the Booking model *)

Section BookingNormalization.

Import Booking Shape.

(** A pattern whose classes do not tell [f c] from [c] matches [map f s]
    exactly when it matches [s]. *)
Lemma nullable_deriv_respects (f : codeunit -> codeunit) (c : codeunit) :
  forall r, respects f r -> respects f (deriv c r) /\ deriv (f c) r = deriv c r.
Proof.
  induction r as [| | p | r1 IH1 r2 IH2 | r1 IH1 r2 IH2 | r1 IH1]; simpl; intros H.
  - auto.
  - auto.
  - rewrite H. destruct (p c); simpl; auto.
  - destruct H as [H1 H2]. destruct (IH1 H1) as [R1 E1], (IH2 H2) as [R2 E2].
    rewrite E1, E2. destruct (nullable r1); simpl; auto.
  - destruct H as [H1 H2]. destruct (IH1 H1) as [R1 E1], (IH2 H2) as [R2 E2].
    rewrite E1, E2. simpl. auto.
  - destruct (IH1 H) as [R1 E1]. rewrite E1. simpl. auto.
Qed.

Lemma matchb_map (f : codeunit -> codeunit) (s : jsstring) :
  forall r, respects f r -> matchb r (map f s) = matchb r s.
Proof.
  induction s as [| c s IH]; intros r H; simpl; [reflexivity |].
  destruct (nullable_deriv_respects f c r H) as [R E].
  rewrite E. apply IH. assumption.
Qed.

Lemma emailUnit_lowerUnit (c : codeunit) : emailUnit (lowerUnit c) = emailUnit c.
Proof.
  unfold emailUnit. rewrite isWhiteSpace_lowerUnit. f_equal. f_equal.
  unfold lowerUnit, at_sign.
  destruct (between 65 90 c || between 192 214 c || between 216 222 c)%bool eqn:E;
    [| reflexivity].
  rewrite !orb_true_iff, !between_spec in E.
  destruct (c + 32 =? 64) eqn:E1; destruct (c =? 64) eqn:E2; try reflexivity;
    rewrite ?Z.eqb_eq, ?Z.eqb_neq in *; lia.
Qed.

Lemma eqb_lowerUnit (k c : codeunit) :
  lowerUnit k = k -> (k < 97 \/ 122 < k) -> (k < 224 \/ 254 < k) ->
  (k =? lowerUnit c) = (k =? c).
Proof.
  intros Hk H1 H2. unfold lowerUnit in *.
  destruct (between 65 90 c || between 192 214 c || between 216 222 c)%bool eqn:E;
    [| reflexivity].
  rewrite !orb_true_iff, !between_spec in E.
  destruct (between 65 90 k || between 192 214 k || between 216 222 k)%bool eqn:Ek;
    [lia |].
  rewrite !orb_false_iff, !between_false in Ek.
  destruct (k =? c + 32) eqn:E1; destruct (k =? c) eqn:E2; try reflexivity;
    rewrite ?Z.eqb_eq, ?Z.eqb_neq in *; lia.
Qed.

Lemma emailRegex_respects : respects lowerUnit emailRegex.
Proof.
  unfold emailRegex, Plus, Chr. cbn [respects].
  repeat split; intros c; try apply emailUnit_lowerUnit;
    apply eqb_lowerUnit; unfold at_sign, dot; try reflexivity; lia.
Qed.

(** A string the validator accepts has no whitespace at all. *)
Lemma emailValidator_trimmed (v : jsstring) :
  emailValidator v = true -> trim v = v.
Proof.
  intros H. apply emailValidator_shape, emailShape_necessary in H.
  destruct H as (_ & Hw & _).
  apply (strip_absent isWhiteSpace). intros c Hc.
  destruct (isWhiteSpace c) eqn:E; [| reflexivity].
  assert (existsb isWhiteSpace v = true)
    by (apply existsb_exists; exists c; auto).
  congruence.
Qed.

(** X7: the setters of the email path bring the value to a normal form:
    applying them again changes nothing, no upper-case letter is left,
    and no whitespace at either end. *)
Theorem setEmail_normal_form (raw : jsstring) :
  Forall latin1 raw ->
  setEmail (setEmail raw) = setEmail raw /\
  (forall c, In c (setEmail raw) -> lowerUnit c = c) /\
  (forall c rest, setEmail raw = c :: rest -> isWhiteSpace c = false) /\
  (forall front c, setEmail raw = front ++ [c] -> isWhiteSpace c = false).
Proof.
  intros _. unfold setEmail. split; [| split; [| split]].
  - rewrite trim_toLowerCase, toLowerCase_idem.
    change (trim (trim raw)) with (strip isWhiteSpace (strip isWhiteSpace raw)).
    rewrite strip_idem. reflexivity.
  - intros c Hc. unfold toLowerCase in Hc. apply in_map_iff in Hc.
    destruct Hc as (d & <- & _). apply lowerUnit_idem.
  - intros c rest E. rewrite <- trim_toLowerCase in E.
    pose proof (strip_head isWhiteSpace (toLowerCase raw)) as H.
    change (strip isWhiteSpace (toLowerCase raw)) with (trim (toLowerCase raw)) in H.
    rewrite E in H. assumption.
  - intros front c E. rewrite <- trim_toLowerCase in E.
    apply (strip_last isWhiteSpace (toLowerCase raw) front c). assumption.
Qed.

Lemma setEmail_normal_form_witness :
  setEmail (setEmail (lit "  User@Example.COM ")) = setEmail (lit "  User@Example.COM ").
Proof.
  apply (setEmail_normal_form (lit "  User@Example.COM ")).
  repeat constructor; vm_compute; discriminate.
Defined.

(** X8: the validator does not look at the case of the letters, and a
    string it accepts has no whitespace to trim; so an address that is
    valid as typed is still valid once normalized, and validating the
    normalized address is validating the trimmed one. *)
Theorem emailValidator_case_insensitive (v : jsstring) :
  Forall latin1 v ->
  emailValidator (toLowerCase v) = emailValidator v /\
  emailValidator (setEmail v) = emailValidator (trim v) /\
  (emailValidator v = true ->
   setEmail v = toLowerCase v /\ emailValidator (setEmail v) = true).
Proof.
  intros _.
  assert (Hcase : forall s, emailValidator (toLowerCase s) = emailValidator s).
  { intros s. unfold emailValidator, test, toLowerCase.
    apply matchb_map, emailRegex_respects. }
  split; [apply Hcase | split].
  - unfold setEmail. apply Hcase.
  - intros H. unfold setEmail. rewrite (emailValidator_trimmed v H).
    split; [reflexivity |]. rewrite Hcase. assumption.
Qed.

Lemma emailValidator_case_insensitive_witness :
  emailValidator (setEmail (lit "First+Last@Test-Domain.com")) = true.
Proof.
  apply (emailValidator_case_insensitive (lit "First+Last@Test-Domain.com")).
  - repeat constructor; vm_compute; discriminate.
  - reflexivity.
Defined.

(** X9: for a candidate whose email, if it has one, is within Latin-1,
    [prepare] succeeds exactly when the candidate has an event identity
    and an email that is valid once normalized, and, if the identity is
    newly set or changed, the Event exists; the document it yields holds
    the normalized email. *)
Theorem prepare_succeeds_iff (events : Events) (c : BookingInput) (doc : IBooking) :
  (forall raw, inEmail c = Some raw -> Forall latin1 raw) ->
  (fst (prepare events c) = inl doc <->
   exists id raw,
     inEventId c = Some id /\ inEmail c = Some raw /\
     emailValidator (setEmail raw) = true /\
     (inEventIdModified c = true -> findById id events <> None) /\
     doc = {| eventId := id; email := setEmail raw;
              eventIdModified := inEventIdModified c |}).
Proof.
  intros _.
  unfold prepare, validate, validateEventId, validateEmail, preSave.
  destruct (inEventId c) as [id |], (inEmail c) as [raw |]; simpl.
  - destruct (setEmail raw) as [| x v] eqn:Ev; simpl.
    + split; [discriminate |].
      intros (j & r & _ & E & Hv & _). injection E as <-.
      rewrite Ev in Hv. discriminate.
    + destruct (emailValidator (x :: v)) eqn:Em; simpl.
      * destruct (inEventIdModified c) eqn:Hm; simpl.
        -- destruct (findById id events) as [ev |] eqn:Hf; simpl.
           ++ split.
              ** intros E. injection E as <-. exists id, raw.
                 rewrite Ev. repeat split; auto. intros _. congruence.
              ** intros (j & r & E1 & E2 & _ & _ & ->).
                 injection E1 as <-. injection E2 as <-. rewrite Ev. reflexivity.
           ++ split; [discriminate |].
              intros (j & r & E1 & _ & _ & Hx & _). injection E1 as <-.
              exfalso. apply Hx; auto.
        -- split.
           ++ intros E. injection E as <-. exists id, raw.
              rewrite Ev. repeat split; auto. discriminate.
           ++ intros (j & r & E1 & E2 & _ & _ & ->).
              injection E1 as <-. injection E2 as <-. rewrite Ev. reflexivity.
      * split; [discriminate |].
        intros (j & r & _ & E & Hv & _). injection E as <-.
        rewrite Ev in Hv. congruence.
  - split; [discriminate | intros (j & r & _ & E & _); discriminate].
  - split.
    + destruct (setEmail raw) as [| x v]; simpl; [discriminate |].
      destruct (emailValidator (x :: v)); discriminate.
    + intros (j & r & E & _); discriminate.
  - split; [discriminate | intros (j & r & E & _); discriminate].
Qed.

(** A first booking of a stored Event, its email written with capitals
    and padded with spaces. *)
Lemma prepare_succeeds_iff_witness :
  fst (prepare [testEvent 7] (candidate 7 " Test@Example.COM "))
  = inl {| eventId := 7; email := lit "test@example.com"; eventIdModified := true |}.
Proof.
  apply (prepare_succeeds_iff [testEvent 7] (candidate 7 " Test@Example.COM ")).
  - intros raw E. injection E as <-. repeat constructor; vm_compute; discriminate.
  - exists 7, (lit " Test@Example.COM ").
    split; [reflexivity |]. split; [reflexivity |]. split; [reflexivity |].
    split; [intros _; vm_compute; discriminate | reflexivity].
Defined.

(** X10: when [prepare] fails it reports one error or two, each of them
    one of the four the model knows and at most one for each path; a
    dangling reference is reported alone, after the one lookup, and the
    errors of validation are reported without any lookup. *)
Theorem prepare_failure_report (events : Events) (c : BookingInput)
                               (errs : list ValidationError) :
  fst (prepare events c) = inr errs ->
  errs <> [] /\ (List.length errs <= 2)%nat /\
  incl errs [MissingField "eventId"; MissingField "email";
             InvalidFormat "email"; DanglingReference "eventId"] /\
  ~ (In (MissingField "email") errs /\ In (InvalidFormat "email") errs) /\
  (In (DanglingReference "eventId") errs ->
   errs = [DanglingReference "eventId"] /\
   exists id, snd (prepare events c) = [FindById id]) /\
  (~ In (DanglingReference "eventId") errs -> snd (prepare events c) = []).
Proof.
  unfold prepare, validate, validateEventId, validateEmail, preSave.
  destruct (inEventId c) as [id |], (inEmail c) as [raw |]; simpl;
    try destruct (setEmail raw) as [| x v]; simpl;
    try destruct (emailValidator (x :: v)); simpl;
    try destruct (inEventIdModified c); simpl;
    try destruct (findById id events); simpl;
    intros E; try discriminate; injection E as <-;
    (split; [discriminate |]);
    (split; [simpl; lia |]);
    (split; [intros e He; simpl in *; tauto |]);
    (split; [intros [H1 H2]; simpl in *;
             repeat match goal with H : _ \/ _ |- _ => destruct H end;
             try discriminate; try contradiction |]);
    (split; [intros H; simpl in H;
             repeat match goal with H : _ \/ _ |- _ => destruct H end;
             try discriminate; try contradiction; split; eauto |]);
    intros H; try reflexivity; exfalso; apply H; simpl; auto.
Qed.

Lemma prepare_failure_report_witness :
  fst (prepare [] (newBooking None (Some (lit "user@@example.com"))))
  = inr [MissingField "eventId"; InvalidFormat "email"] /\
  snd (prepare [] (newBooking None (Some (lit "user@@example.com")))) = [].
Proof.
  split; [reflexivity |].
  apply (prepare_failure_report []
           (newBooking None (Some (lit "user@@example.com")))
           [MissingField "eventId"; InvalidFormat "email"] eq_refl).
  simpl. intros [H | [H | []]]; discriminate.
Defined.

End BookingNormalization.

(** ** More on the time pattern *)

Section TimeUnits.

Import Time.

Lemma timeValidator_shape (s : jsstring) : timeValidator s = true <-> timeShape s.
Proof. unfold timeValidator. rewrite test_spec. apply timeRegex_shape. Qed.

(** X17: a time the validator accepts is one or two digits, a colon and
    two digits, and nothing else: no seconds, no suffix such as [AM], no
    space; and a leading zero before a one-digit hour is optional. *)
Theorem time_validator_units :
  (forall s, timeValidator s = true ->
     exists hour minutes,
       s = hour ++ colon :: minutes /\
       (List.length hour = 1 \/ List.length hour = 2)%nat /\
       List.length minutes = 2%nat /\
       forallb isDigit hour = true /\ forallb isDigit minutes = true) /\
  (forall d rest,
     timeValidator (d :: colon :: rest) = timeValidator (48 :: d :: colon :: rest)).
Proof.
  split.
  - intros s H. apply timeValidator_shape in H.
    destruct H as (hour & c & e & -> & Hc & He & Hh).
    exists hour, [c; e]. split; [reflexivity |].
    unfold isDigit.
    destruct Hh as [(d & -> & Hd) | [(a & d & -> & Ha & Hd) | (d & -> & Hd)]];
      simpl; rewrite ?andb_true_r, ?andb_true_iff, !between_spec;
      repeat split; auto; lia.
  - intros d rest.
    assert (Hiff : timeValidator (d :: colon :: rest) = true <->
                   timeValidator (48 :: d :: colon :: rest) = true).
    { rewrite !timeValidator_shape. unfold timeShape, colon. split.
      - intros (hour & c & e & E & Hc & He & Hh).
        destruct Hh as [(x & -> & Hx) | [(a & x & -> & Ha & Hx) | (x & -> & Hx)]];
          simpl in E; inversion E; subst; try lia.
        exists [48; x], c, e. repeat split; try lia.
        right; left. exists 48, x. repeat split; lia.
      - intros (hour & c & e & E & Hc & He & Hh).
        destruct Hh as [(x & -> & Hx) | [(a & x & -> & Ha & Hx) | (x & -> & Hx)]];
          simpl in E; inversion E; subst; try lia.
        exists [x], c, e. repeat split; try lia.
        left. exists x. split; [reflexivity | lia]. }
    destruct (timeValidator (d :: colon :: rest)),
             (timeValidator (48 :: d :: colon :: rest));
      try reflexivity; destruct Hiff as [H1 H2];
      [symmetry; apply H1 | apply H2]; reflexivity.
Qed.

Lemma time_validator_units_witness :
  exists hour minutes,
    lit "8:45" = hour ++ colon :: minutes /\
    (List.length hour = 1 \/ List.length hour = 2)%nat /\
    List.length minutes = 2%nat /\
    forallb isDigit hour = true /\ forallb isDigit minutes = true.
Proof.
  apply (proj1 time_validator_units (lit "8:45")). reflexivity.
Defined.

End TimeUnits.

(** ** More on the connection module *)

Section ConnectionBookkeeping.

Import Mongodb Schedule.

Lemma ids_add (X Y : list nat) (n : nat) :
  Permutation (X ++ Y) (seq 0 n) -> Permutation (X ++ n :: Y) (seq 0 (S n)).
Proof.
  intros H. rewrite seq_S. simpl.
  apply Permutation_trans with (n :: X ++ Y).
  - apply Permutation_sym, Permutation_middle.
  - apply Permutation_trans with (n :: seq 0 n).
    + apply perm_skip. assumption.
    + apply Permutation_cons_append.
Qed.

Lemma filter_split_perm {A : Type} (f : A -> bool) (l : list A) :
  Permutation l (filter (fun x => negb (f x)) l ++ filter f l).
Proof.
  induction l as [| x l IH]; simpl; [constructor |].
  destruct (f x); simpl.
  - apply Permutation_cons_app. assumption.
  - apply perm_skip. assumption.
Qed.

Lemma wellformed_fresh (uri : jsstring) : wellformed (fresh uri).
Proof.
  constructor; unfold callIds, settledAs, pending, attempts; simpl;
    intros; try contradiction; try discriminate; try lia.
  constructor.
Qed.

(** A promise that has settled keeps its outcome. *)
Lemma settled_connect (s : state) (p : nat) (o : settled) :
  nth_error (promises s) p = Some (Settled o) ->
  nth_error (promises s ++ [Pending]) p = Some (Settled o).
Proof.
  intros H. rewrite nth_error_app1; [assumption |].
  apply nth_error_Some. congruence.
Qed.

Lemma wellformed_call (s : state) : wellformed s -> wellformed (connectDB s).
Proof.
  intros W. unfold connectDB. simpl.
  destruct (conn (cached s)) as [h |] eqn:Hc.
  - constructor; unfold callIds, settledAs, pending, attempts; simpl;
      try apply W.
    + rewrite map_app. simpl. rewrite <- app_assoc. simpl.
      apply ids_add. apply (wf_ids s W).
    + intros c o Hin. apply in_app_or in Hin.
      destruct Hin as [Hin | [E | []]]; [apply (wf_results s W c o Hin) |].
      injection E as <- <-. apply (wf_conn s W h Hc).
    + pose proof (wf_attempts s W). unfold attempts in *. lia.
  - destruct (promise (cached s)) as [p |] eqn:Hp.
    + pose proof (wf_cached s W p Hp) as Hlt.
      unfold await. simpl.
      destruct (nth_error (promises s) p) as [[| o] |] eqn:Hn.
      * constructor; unfold callIds, settledAs, pending, attempts; simpl;
          try apply W.
        -- rewrite map_app. simpl.
           replace (map fst (results s) ++ (map fst (waiting s) ++ [calls s]) ++ map fst (jobs s))
             with ((map fst (results s) ++ map fst (waiting s)) ++ calls s :: map fst (jobs s))
             by (rewrite <- !app_assoc; reflexivity).
           apply ids_add. rewrite <- app_assoc. apply (wf_ids s W).
        -- intros c q Hin. apply in_app_or in Hin.
           destruct Hin as [Hin | [E | []]]; [apply (wf_waiting s W c q Hin) |].
           injection E as <- <-. assumption.
        -- pose proof (wf_attempts s W). unfold attempts in *. lia.
      * constructor; unfold callIds, settledAs, pending, attempts; simpl;
          try apply W.
        -- rewrite map_app. simpl.
           replace (map fst (results s) ++ map fst (waiting s) ++ map fst (jobs s) ++ [calls s])
             with ((map fst (results s) ++ map fst (waiting s) ++ map fst (jobs s)) ++ calls s :: [])
             by (rewrite <- !app_assoc; reflexivity).
           apply ids_add. rewrite app_nil_r. apply (wf_ids s W).
        -- intros c q Hin. apply in_app_or in Hin.
           destruct Hin as [Hin | [E | []]]; [apply (wf_jobs s W c q Hin) |].
           injection E as <- <-. eauto.
        -- pose proof (wf_attempts s W). unfold attempts in *. lia.
      * exfalso. apply nth_error_None in Hn. lia.
    + unfold await, connect. simpl.
      rewrite nth_error_app2 by lia. rewrite Nat.sub_diag. simpl.
      constructor; unfold callIds, settledAs, pending, attempts; simpl.
      * rewrite map_app. simpl.
        replace (map fst (results s) ++ (map fst (waiting s) ++ [calls s]) ++ map fst (jobs s))
          with ((map fst (results s) ++ map fst (waiting s)) ++ calls s :: map fst (jobs s))
          by (rewrite <- !app_assoc; reflexivity).
        apply ids_add. rewrite <- app_assoc. apply (wf_ids s W).
      * intros c q Hin. apply in_app_or in Hin.
        destruct Hin as [Hin | [E | []]].
        -- pose proof (wf_waiting s W c q Hin) as Hq. unfold pending in Hq.
           rewrite nth_error_app1; [assumption |].
           apply nth_error_Some. congruence.
        -- injection E as <- <-. rewrite nth_error_app2 by lia.
           rewrite Nat.sub_diag. reflexivity.
      * intros c q Hin. destruct (wf_jobs s W c q Hin) as (o & Ho).
        exists o. apply settled_connect. assumption.
      * intros q E. injection E as <-. rewrite length_app. simpl. lia.
      * intros c o Hin. destruct (wf_results s W c o Hin) as (q & Hq).
        exists q. apply settled_connect. assumption.
      * congruence.
      * rewrite length_app. simpl.
        pose proof (wf_attempts s W). unfold attempts in *. lia.
Qed.

Lemma wellformed_settle (s s' : state) (p : nat) (o : settled) :
  wellformed s -> settle p o s = Some s' -> wellformed s'.
Proof.
  intros W. unfold settle.
  destruct (nth_error (promises s) p) as [[| o'] |] eqn:Hp; try discriminate.
  intros E. injection E as <-.
  assert (Hlt : (p < List.length (promises s))%nat)
    by (apply nth_error_Some; congruence).
  assert (Hkeep : forall q x, nth_error (promises s) q = Some (Settled x) ->
                              nth_error (setNth p (Settled o) (promises s)) q
                              = Some (Settled x)).
  { intros q x Hq. rewrite setNth_other; [assumption |]. congruence. }
  constructor; unfold callIds, settledAs, pending, attempts; simpl.
  - apply Permutation_trans with (callIds s); [| apply (wf_ids s W)].
    unfold callIds. apply Permutation_app_head. rewrite map_app.
    apply Permutation_trans
      with ((map fst (filter (fun w => negb (awaits p w)) (waiting s))
             ++ map fst (filter (awaits p) (waiting s))) ++ map fst (jobs s)).
    + rewrite <- app_assoc. apply Permutation_app_head, Permutation_app_comm.
    + apply Permutation_app_tail. rewrite <- map_app.
      apply Permutation_map, Permutation_sym, filter_split_perm.
  - intros c q Hin. apply filter_In in Hin. destruct Hin as [Hin Hf].
    unfold awaits in Hf. simpl in Hf. apply negb_true_iff, Nat.eqb_neq in Hf.
    rewrite setNth_other by assumption. apply (wf_waiting s W c q Hin).
  - intros c q Hin. apply in_app_or in Hin. destruct Hin as [Hin | Hin].
    + destruct (wf_jobs s W c q Hin) as (x & Hx). exists x. apply Hkeep. assumption.
    + apply filter_In in Hin. destruct Hin as [_ Hf]. unfold awaits in Hf.
      simpl in Hf. apply Nat.eqb_eq in Hf. subst q.
      exists o. apply setNth_same. assumption.
  - intros q Hq. pose proof (wf_cached s W q Hq) as Hb.
    clear - Hb. revert q Hb. generalize (promises s) p.
    induction l as [| x l IH]; intros n q Hb; destruct n; simpl in *; try lia.
    destruct q; [lia |]. specialize (IH n q). lia.
  - intros c x Hin. destruct (wf_results s W c x Hin) as (q & Hq).
    exists q. apply Hkeep. assumption.
  - intros h Hh. destruct (wf_conn s W h Hh) as (q & Hq).
    exists q. apply Hkeep. assumption.
  - pose proof (wf_attempts s W) as Ha. unfold attempts in Ha.
    clear - Ha. revert Ha. generalize (calls s) (promises s) p.
    intros n l. revert n. induction l as [| x l IH]; intros n k Ha; destruct k; simpl in *; try lia.
    specialize (IH (pred n) k). lia.
Qed.

Lemma wellformed_tick (s s' : state) :
  wellformed s -> tick s = Some s' -> wellformed s'.
Proof.
  intros W. unfold tick. destruct (jobs s) as [| [c q] rest] eqn:Hj; [discriminate |].
  intros E. injection E as <-.
  assert (Hhead : In (c, q) (jobs s)) by (rewrite Hj; left; reflexivity).
  destruct (wf_jobs s W c q Hhead) as (o & Ho).
  assert (Hids : Permutation
                   (map fst (results s ++ [(c, o)]) ++ map fst (waiting s) ++ map fst rest)
                   (seq 0 (calls s))).
  { apply Permutation_trans with (callIds s); [| apply (wf_ids s W)].
    unfold callIds. rewrite Hj, map_app. simpl. rewrite <- app_assoc. simpl.
    apply Permutation_app_head.
    apply Permutation_trans with (c :: map fst (waiting s) ++ map fst rest).
    - apply Permutation_refl.
    - apply Permutation_middle. }
  unfold resume. simpl. rewrite Ho.
  destruct o as [h | reason]; constructor;
    unfold callIds, settledAs, pending, attempts; simpl;
    try apply W; try assumption.
  - intros c' p' Hin. apply (wf_jobs s W c' p'). rewrite Hj. right. assumption.
  - intros c' o' Hin. apply in_app_or in Hin.
    destruct Hin as [Hin | [E | []]]; [apply (wf_results s W c' o' Hin) |].
    injection E as <- <-. exists q. assumption.
  - intros h0 E. injection E as <-. exists q. assumption.
  - intros c' p' Hin. apply (wf_jobs s W c' p'). rewrite Hj. right. assumption.
  - discriminate.
  - intros c' o' Hin. apply in_app_or in Hin.
    destruct Hin as [Hin | [E | []]]; [apply (wf_results s W c' o' Hin) |].
    injection E as <- <-. exists q. assumption.
Qed.

Lemma run_wellformed : forall es s s',
  wellformed s -> run s es = Some s' -> wellformed s'.
Proof.
  induction es as [| e es IH]; intros s s' W Hr; simpl in Hr.
  - injection Hr as <-. assumption.
  - destruct (step s e) as [s1 |] eqn:Hs; [| discriminate].
    apply (IH s1 s'); [| assumption].
    destruct e as [| p o |]; simpl in Hs.
    + injection Hs as <-. apply wellformed_call. assumption.
    + eapply wellformed_settle; eassumption.
    + eapply wellformed_tick; eassumption.
Qed.

(** X11: along every schedule each call made is accounted for once: it
    has completed, is suspended at its [await], or is queued to resume;
    no call completes twice, [mongoose.connect] is called at most once
    for each call, and when no attempt is in flight and the queue is
    empty every call has completed. *)
Theorem calls_accounted (uri : jsstring) (es : list event) (s : state) :
  run (fresh uri) es = Some s ->
  Permutation (callIds s) (seq 0 (calls s)) /\
  NoDup (map fst (results s)) /\
  (List.length (results s) + List.length (waiting s) + List.length (jobs s)
   = calls s)%nat /\
  (attempts s <= calls s)%nat /\
  (inFlight s = [] -> jobs s = [] -> List.length (results s) = calls s).
Proof.
  intros Hr. pose proof (run_wellformed es _ s (wellformed_fresh uri) Hr) as W.
  pose proof (wf_ids s W) as Hp.
  assert (Hlen : (List.length (results s) + List.length (waiting s)
                  + List.length (jobs s) = calls s)%nat).
  { apply Permutation_length in Hp. unfold callIds in Hp.
    rewrite !length_app, !length_map, length_seq in Hp. lia. }
  split; [assumption | split; [| split; [assumption | split]]].
  - assert (Hnd : NoDup (callIds s)).
    { apply (Permutation_NoDup (Permutation_sym Hp)). apply seq_NoDup. }
    unfold callIds in Hnd. apply NoDup_app_remove_r in Hnd. assumption.
  - apply (wf_attempts s W).
  - intros Hf Hj.
    assert (Hw : waiting s = []).
    { destruct (waiting s) as [| [c p] w] eqn:Ew; [reflexivity |].
      assert (Hpend : pending s p) by (apply (wf_waiting s W c p); rewrite Ew; left; reflexivity).
      assert (Hin : In p (inFlight s)).
      { apply pendingFrom_In. exists p. split; [reflexivity | assumption]. }
      rewrite Hf in Hin. contradiction. }
    rewrite Hw, Hj in Hlen. simpl in Hlen. lia.
Qed.

Lemma calls_accounted_witness :
  option_map (fun s => (List.length (results s), calls s))
    (run (fresh testUri) (staleSchedule ++ [Call])) = Some (2%nat, 4%nat) /\
  forall s, run (fresh testUri) (staleSchedule ++ [Call]) = Some s ->
            NoDup (map fst (results s)).
Proof.
  split; [reflexivity |].
  intros s Hs. apply (calls_accounted testUri _ s Hs).
Defined.

(** X12: along every schedule [connectDB] returns only an instance some
    connection attempt was fulfilled with, and throws only the reason
    some attempt was rejected with. *)
Theorem results_come_from_attempts (uri : jsstring) (es : list event) (s : state)
                                   (c : nat) (o : settled) :
  run (fresh uri) es = Some s -> In (c, o) (results s) ->
  exists p, nth_error (promises s) p = Some (Settled o).
Proof.
  intros Hr Hin.
  pose proof (run_wellformed es _ s (wellformed_fresh uri) Hr) as W.
  apply (wf_results s W c o Hin).
Qed.

Lemma results_come_from_attempts_witness :
  exists s,
    run (fresh testUri) [Call; Settle 0 (Rejected "Database unreachable"); Tick] = Some s /\
    exists p, nth_error (promises s) p = Some (Settled (Rejected "Database unreachable")).
Proof.
  destruct (run (fresh testUri) [Call; Settle 0 (Rejected "Database unreachable"); Tick])
    as [s |] eqn:Hs; [| vm_compute in Hs; discriminate].
  exists s. split; [reflexivity |].
  apply (results_come_from_attempts testUri _ s 0%nat _ Hs).
  vm_compute in Hs. injection Hs as <-. left. reflexivity.
Defined.

(** Two calls made while the first attempt is in flight share it. *)
Lemma orderly_single_shared_handle_witness :
  exists s, run (fresh testUri) [Call; Call] = Some s /\
            (List.length (inFlight s) <= 1)%nat.
Proof.
  destruct (run (fresh testUri) [Call; Call]) as [s |] eqn:Hs;
    [| vm_compute in Hs; discriminate].
  exists s. split; [reflexivity |].
  apply (orderly_single_shared_handle testUri [Call; Call] s); [reflexivity | exact Hs].
Defined.

(** X14: along an orderly schedule from a freshly loaded module, once a
    connection is cached, whatever orderly schedule follows, the cached
    connection stays the same, no attempt is started, and every call
    that completes from then on returns that connection. *)
Theorem cached_connection_is_final (uri : jsstring) (es es' : list event)
                                   (s s' : state) (h : handle) :
  run (fresh uri) es = Some s -> orderly (fresh uri) es = true ->
  conn (cached s) = Some h ->
  run s es' = Some s' -> orderly s es' = true ->
  conn (cached s') = Some h /\ attempts s' = attempts s /\
  exists more, results s' = results s ++ more /\
               Forall (fun r => snd r = Fulfilled h) more.
Proof.
  intros Hr Ho Hc Hr' Ho'.
  pose proof (orderly_consistent es _ s (consistent_fresh uri) Ho Hr) as I.
  destruct (cached_conn_stable es' s s' h I Hc Ho' Hr') as (Hc' & Hp & more & Hm & Hall).
  split; [assumption |]. split; [unfold attempts; congruence |].
  exists more. split; assumption.
Qed.

Lemma cached_connection_is_final_witness :
  exists s s',
    run (fresh testUri) [Call; Settle 0 (Fulfilled 1); Tick] = Some s /\
    run s [Call; Call] = Some s' /\
    conn (cached s') = Some 1 /\ attempts s' = attempts s.
Proof.
  destruct (run (fresh testUri) [Call; Settle 0 (Fulfilled 1); Tick]) as [s |] eqn:Hs;
    [| vm_compute in Hs; discriminate].
  assert (Hc : conn (cached s) = Some 1)
    by (vm_compute in Hs; injection Hs as <-; reflexivity).
  assert (Ho : orderly s [Call; Call] = true)
    by (vm_compute in Hs; injection Hs as <-; reflexivity).
  destruct (run s [Call; Call]) as [s' |] eqn:Hs';
    [| vm_compute in Hs; injection Hs as <-; vm_compute in Hs'; discriminate].
  exists s, s'.
  destruct (cached_connection_is_final testUri _ [Call; Call] s s' 1 Hs eq_refl Hc Hs' Ho)
    as (H1 & H2 & _).
  repeat split; assumption.
Defined.

(** X15: a module loaded while [global.mongoose] holds a cache takes that
    cache over, and if the cache holds a connection the first call
    returns it without a connection attempt; a module loaded without a
    global cache starts from an empty one. *)
Theorem loadModule_reuses_global_cache (env : option jsstring)
                                       (g : option MongooseCache)
                                       (heap : list promiseState) (s : state) :
  loadModule env g heap = Exports s ->
  cached s = match g with
             | Some c => c
             | None => {| conn := None; promise := None |}
             end /\
  (forall c h, g = Some c -> conn c = Some h ->
               results (connectDB s) = [(0%nat, Fulfilled h)] /\
               promises (connectDB s) = heap /\
               cached (connectDB s) = c).
Proof.
  unfold loadModule. destruct env as [[| x u] |]; try discriminate.
  intros E. injection E as <-. simpl. split; [reflexivity |].
  intros c h -> Hc. unfold connectDB. simpl. rewrite Hc. simpl. auto.
Qed.

Lemma loadModule_reuses_global_cache_witness :
  exists s,
    loadModule (Some testUri) (Some {| conn := Some 1; promise := Some 0%nat |})
               [Settled (Fulfilled 1)] = Exports s /\
    results (connectDB s) = [(0%nat, Fulfilled 1)].
Proof.
  destruct (loadModule (Some testUri) (Some {| conn := Some 1; promise := Some 0%nat |})
              [Settled (Fulfilled 1)]) as [m | s] eqn:Hs;
    [vm_compute in Hs; discriminate |].
  exists s. split; [reflexivity |].
  apply (proj2 (loadModule_reuses_global_cache _ _ _ s Hs)
           {| conn := Some 1; promise := Some 0%nat |} 1 eq_refl eq_refl).
Defined.

End ConnectionBookkeeping.

(** ** The featured events *)

Section FeaturedEvents.

Import Constants.

(** X16: the slugs of the featured events are pairwise distinct, each
    of them is a slug in normal form (deriving a slug from it gives it
    back), and for all the events but one the slug is the one derived
    from the title; the exception is [ETHGlobal Hackathon: Lisbon 2025]
    with the slug [ethglobal-lisbon-2025]. *)
Theorem featured_slugs :
  NoDup (map slug events) /\
  Forall (fun e => Slug.slugify (slug e) = slug e) events /\
  map title (filter (fun e => negb (streq (Slug.slugify (title e)) (slug e))) events)
  = [lit "ETHGlobal Hackathon: Lisbon 2025"].
Proof.
  split; [| split].
  - repeat constructor; vm_compute; intuition discriminate.
  - repeat constructor.
  - reflexivity.
Qed.

End FeaturedEvents.
